(** * DDQN_LunarLander: the replay buffer and the agent of [dqn_agent.py]

    A shallow embedding of [ReplayBuffer] and [Agent] and the properties
    of the replay memory, of the scheduling of [learn], of the TD target
    and of the soft update of the target network.

    Conventions of the embedding.
    - In the model of the agent and of the replay buffer a tensor entry
      is an exact rational ([Qc]): this model gives the structure of the
      computation, that is which entries are computed from which, what
      is stored where and what raises.  The arithmetic on the entries is
      modelled apart, in [Binary32], on IEEE 754 binary32 values with
      rounding, infinities and NaN; what depends on the value of an
      arithmetic expression is stated there.
    - A state vector is an element of a type [State]; all states have
      the shape that the network takes, so a batch of states is the
      list of its rows.
    - A Python call that may raise returns a [result]; an exception is
      named by its class.
    - The draws of Python's global random generator are explicit
      arguments of the functions that consume them; [random.sample] is
      modelled as CPython implements it.
    - Parameter tensors live in a store indexed by locations, because
      the optimizer and the two networks refer to them by identity. *)

From Stdlib Require Import ZArith QArith Qcanon Lia SpecFloat.
From stdpp Require Import strings numbers base option list gmap.

(** ** Python results *)

Definition exn := string.

Definition ValueError : exn := "ValueError".
Definition IndexError : exn := "IndexError".
Definition RuntimeError : exn := "RuntimeError".

Inductive result (A : Type) : Type :=
| Ok (a : A)
| Raise (e : exn).
Arguments Ok {A} a.
Arguments Raise {A} e.

(** Sequencing of calls that may raise: the first exception propagates. *)
Definition result_bind {A B : Type} (r : result A) (k : A → result B) : result B :=
  match r with
  | Ok a => k a
  | Raise e => Raise e
  end.

Notation "'let*' x ':=' c 'in' k" := (result_bind c (λ x, k))
  (at level 10, x name, c at level 100, k at level 200).
Notation "'let*' ' p ':=' c 'in' k" := (result_bind c (λ p, k))
  (at level 10, p strict pattern, c at level 100, k at level 200).

(** ** Module-level constants *)

Definition BUFFER_SIZE : nat := Z.to_nat 100000.
Definition BATCH_SIZE : nat := 64.
Definition GAMMA : Qc := Q2Qc (99 # 100).
Definition TAU : Qc := Q2Qc (1 # 1000).
Definition UPDATE_EVERY : Z := 4.

(** ** The numeric library, as far as the agent uses it *)

(** Index and value of the first maximum of [x :: l], scanning left to
    right: a later entry replaces the current best only when strictly
    larger. *)
Fixpoint first_max (bi : nat) (b : Qc) (i : nat) (l : list Qc) : nat * Qc :=
  match l with
  | [] => (bi, b)
  | x :: l' =>
      if decide (b < x)%Qc then first_max i x (S i) l'
      else first_max bi b (S i) l'
  end.

(** [np.argmax] of a flattened array. *)
Definition np_argmax (a : list Qc) : result nat :=
  match a with
  | [] => Raise ValueError
  | x :: l => Ok (first_max 0 x 1 l).1
  end.

(** One row of [torch.max(t, 1)]: the maximum and its index. *)
Definition row_max (row : list Qc) : result (Qc * nat) :=
  match row with
  | [] => Raise IndexError
  | x :: l => let r := first_max 0 x 1 l in Ok (r.2, r.1)
  end.

(** [mapM] over a list, left to right. *)
Fixpoint result_all {A B : Type} (f : A → result B) (l : list A) : result (list B) :=
  match l with
  | [] => Ok []
  | x :: l' => let* y := f x in let* ys := result_all f l' in Ok (y :: ys)
  end.

(** [torch.max(t, 1)] of a (B, A) tensor: (values, indices), each of
    shape (B). *)
Definition torch_max1 (t : list (list Qc)) : result (list Qc * list nat) :=
  let* r := result_all row_max t in Ok (r.*1, r.*2).

(** One row of [torch.gather(t, 1, index)] with an index of shape (B, 1). *)
Definition row_gather (row : list Qc) (i : Z) : result Qc :=
  if decide (0 ≤ i)%Z then
    match row !! Z.to_nat i with
    | Some v => Ok v
    | None => Raise RuntimeError
    end
  else Raise RuntimeError.

(** [torch.gather(t, 1, index)] with an index of shape (B', 1): the index
    may have fewer rows than [t], not more; row [i] of the result is
    taken from row [i] of [t]. *)
Definition torch_gather1 (t : list (list Qc)) (index : list Z) : result (list Qc) :=
  if decide (length index ≤ length t) then
    result_all (λ p, row_gather p.1 p.2) (zip t index)
  else Raise RuntimeError.

(** Element-wise binary operation on tensors of shape (B, 1), with the
    broadcasting of a single row. *)
Definition broadcast2 {A : Type} (f : A → A → A) (a b : list A) : result (list A) :=
  if decide (length a = length b) then Ok (zip_with f a b)
  else match a, b with
       | [x], _ => Ok (f x <$> b)
       | _, [y] => Ok ((λ x, f x y) <$> a)
       | _, _ => Raise RuntimeError
       end.

(** [np.vstack] of a list of rows of one shape. *)
Definition np_vstack {A : Type} (rows : list A) : result (list A) :=
  match rows with
  | [] => Raise ValueError
  | _ => Ok rows
  end.

(** [[e for e in l if e is not None]]. *)
Definition not_None {A : Type} (l : list (option A)) : list A := omap id l.

(** [.astype(np.uint8)] on a boolean entry, then [.float()]. *)
Definition astype_uint8 (b : bool) : Z := Z.b2z b.
Definition to_float (n : Z) : Qc := Qc_of_Z n.

(** [random.sample(population, k)], given the positions [picks] that it
    chooses; [python_random_sample] below computes them from the draws
    of the generator. *)
Definition random_sample {A : Type} (population : list A) (k : nat)
    (picks : list nat) : result (list A) :=
  if decide (k ≤ length population) then
    Ok (omap (λ i, population !! i) picks)
  else Raise ValueError.

(** What the generator guarantees about the positions it hands to
    [random.sample] on a population of size [n]: [k] pairwise different
    positions below [n]. *)
Definition sample_picks (n k : nat) (picks : list nat) : Prop :=
  length picks = k ∧ NoDup picks ∧ Forall (λ i, i < n) picks.

(** ** [random.sample], as CPython implements it

    [random.sample(population, k)] draws from the generator through
    [_randbelow]; [draws] are the values that [_randbelow] returns
    during the call, in order, and a call [_randbelow(m)] returns a
    value below [m].  A function of this section returns [None] when
    [draws] is not the sequence of values of a complete call: when it
    ends before the call does, or holds a value that [_randbelow] cannot
    return at that point. *)

(** [setsize]: 21, plus [4 ** ceil(log(k * 3, 4))] when [k > 5]. *)
Definition setsize (k : nat) : nat :=
  21 + (if decide (5 < k)
        then 4 ^ Z.to_nat ((Z.log2_up (Z.of_nat (k * 3)) + 1) / 2)
        else 0).

(** The loop over a copy of the population, for [n <= setsize]:
    [j = randbelow(n-i); result[i] = pool[j]; pool[j] = pool[n-i-1]],
    with [k] iterations left. *)
Fixpoint sample_pool {A : Type} (pool : list A) (n k i : nat) (draws : list nat)
    : option (list A) :=
  match k with
  | 0 => Some []
  | S k' =>
      match draws with
      | [] => None
      | j :: draws' =>
          if decide (j < n - i) then
            x ← pool !! j;
            y ← pool !! (n - i - 1);
            (x ::.) <$> sample_pool (<[j := y]> pool) n k' (S i) draws'
          else None
      end
  end.

(** [j = randbelow(n)], repeated [while j in selected]: the first draw
    that is not selected, and the draws that remain. *)
Fixpoint first_unselected (n : nat) (selected : list nat) (draws : list nat)
    : option (nat * list nat) :=
  match draws with
  | [] => None
  | j :: draws' =>
      if decide (j < n) then
        if decide (j ∈ selected) then first_unselected n selected draws'
        else Some (j, draws')
      else None
  end.

(** The loop with a set of selected positions, for [n > setsize], with
    [k] iterations left. *)
Fixpoint sample_set {A : Type} (population : list A) (n k : nat)
    (selected : list nat) (draws : list nat) : option (list A) :=
  match k with
  | 0 => Some []
  | S k' =>
      '(j, draws') ← first_unselected n selected draws;
      x ← population !! j;
      (x ::.) <$> sample_set population n k' (j :: selected) draws'
  end.

(** [random.sample(population, k)]. *)
Definition python_random_sample {A : Type} (population : list A) (k : nat)
    (draws : list nat) : option (result (list A)) :=
  let n := length population in
  if decide (k ≤ n) then
    Ok <$> (if decide (n ≤ setsize k) then sample_pool population n k 0 draws
            else sample_set population n k [] draws)
  else Some (Raise ValueError).

(** [random.choice(seq)]: [r] is the generator's draw below [len(seq)]. *)
Definition random_choice {A : Type} (seq : list A) (r : nat) : result A :=
  match seq !! r with
  | Some x => Ok x
  | None => Raise IndexError
  end.

(** [np.arange(n)]. *)
Definition np_arange (n : nat) : list Z := Z.of_nat <$> seq 0 n.

(** ** collections.deque with a maximum length *)

Record deque (A : Type) := Deque { maxlen : nat; items : list A }.
Arguments Deque {A} maxlen items.
Arguments maxlen {A} d.
Arguments items {A} d.

(** [d.append(x)]: the item is appended on the right; a deque that then
    exceeds [maxlen] drops its leftmost item. *)
Definition deque_append {A : Type} (d : deque A) (x : A) : deque A :=
  let l := items d ++ [x] in
  Deque (maxlen d) (if decide (maxlen d < length l) then drop 1 l else l).

(** ** Experiences *)

Section Experience.
Context {State : Type}.

(** The namedtuple [Experience]. *)
Record Experience := experience {
  state : State;
  action : Z;
  reward : Qc;
  next_state : State;
  done : bool
}.

(** The five tensors returned by [ReplayBuffer.sample] and taken by
    [Agent.learn]: (states, actions, rewards, next_states, dones).  The
    last four have shape (B, 1) or (B, state_size); a tensor of shape
    (B, 1) is kept as the list of its B entries. *)
Definition Batch : Type :=
  list State * list Z * list Qc * list State * list Qc.

End Experience.
Arguments Experience State : clear implicits.
Arguments Batch State : clear implicits.

(** ** class ReplayBuffer *)

Module ReplayBuffer.
Section Defs.
Context {State : Type}.

(** A slot of the deque holds a Python object: an [Experience] or [None]. *)
Record t := Make {
  action_size : nat;
  memory : deque (option (Experience State));
  batch_size : nat
}.

(** [ReplayBuffer(action_size, buffer_size, batch_size, seed)]. *)
Definition init (action_size buffer_size batch_size : nat) (seed : Z) : t :=
  Make action_size (Deque buffer_size []) batch_size.

(** [add]: build the experience and append it to the deque. *)
Definition add (self : t) (state : State) (action : Z) (reward : Qc)
    (next_state : State) (done : bool) : t :=
  let e := experience state action reward next_state done in
  Make (action_size self) (deque_append (memory self) (Some e)) (batch_size self).

(** [__len__]. *)
Definition len (self : t) : nat := length (items (memory self)).

(** [sample]: [picks] are the positions drawn by [random.sample].  Each
    comprehension skips the [None] entries of the drawn list. *)
Definition sample (self : t) (picks : list nat) : result (Batch State) :=
  let* experiences :=
    random_sample (items (memory self)) (batch_size self) picks in
  let* states := np_vstack (state <$> not_None experiences) in
  let* actions := np_vstack (action <$> not_None experiences) in
  let* rewards := np_vstack (reward <$> not_None experiences) in
  let* next_states := np_vstack (next_state <$> not_None experiences) in
  let* dones := np_vstack (done <$> not_None experiences) in
  Ok (states, actions, rewards, next_states,
      (to_float ∘ astype_uint8) <$> dones).

End Defs.
Arguments t State : clear implicits.
End ReplayBuffer.

(** ** Tensors under autograd *)

(** A tensor together with the parameter tensors (by location) that
    autograd reaches from it: the leaves that [backward] would give a
    gradient to. *)
Record tensor (A : Type) := Tensor { value : A; graph : gset nat }.
Arguments Tensor {A} value graph.
Arguments value {A} t.
Arguments graph {A} t.

(** A tensor that requires no gradient, such as a sampled batch. *)
Definition const {A : Type} (a : A) : tensor A := Tensor a ∅.

(** [t.detach()]. *)
Definition detach {A : Type} (t : tensor A) : tensor A := Tensor (value t) ∅.

(** [torch.max(t, 1)]: the values stay in the graph of [t], the indices
    are integers and carry no gradient. *)
Definition tensor_max1 (t : tensor (list (list Qc)))
    : result (tensor (list Qc) * tensor (list Z)) :=
  let* '(values, indices) := torch_max1 (value t) in
  Ok (Tensor values (graph t), const (Z.of_nat <$> indices)).

(** [torch.gather(t, 1, index)]. *)
Definition tensor_gather1 (t : tensor (list (list Qc))) (index : tensor (list Z))
    : result (tensor (list Qc)) :=
  let* v := torch_gather1 (value t) (value index) in
  Ok (Tensor v (graph t)).

(** [a + b], [a * b] and [a - b] on tensors of shape (B, 1). *)
Definition tensor_binop (f : Qc → Qc → Qc) (a b : tensor (list Qc))
    : result (tensor (list Qc)) :=
  let* v := broadcast2 f (value a) (value b) in
  Ok (Tensor v (graph a ∪ graph b)).

(** [c * a] and [c - a] for a Python number [c]. *)
Definition tensor_scale (c : Qc) (a : tensor (list Qc)) : tensor (list Qc) :=
  Tensor ((λ x, c * x)%Qc <$> value a) (graph a).
Definition tensor_rsub (c : Qc) (a : tensor (list Qc)) : tensor (list Qc) :=
  Tensor ((λ x, c - x)%Qc <$> value a) (graph a).

(** Sum of a list of numbers. *)
Definition Qc_sum (l : list Qc) : Qc := foldr Qcplus 0%Qc l.

(** [nn.MSELoss()(input, target)]: the mean of the squared differences. *)
Definition mse_loss (input target : tensor (list Qc)) : result (tensor Qc) :=
  let* d := tensor_binop Qcminus input target in
  Ok (Tensor (Qc_sum ((λ x, x * x)%Qc <$> value d)
              / Qc_of_Z (Z.of_nat (length (value d))))%Qc
             (graph d)).

(** Element-wise operations on parameter tensors, kept flat; the two
    operands must have the same number of entries. *)
Definition param_scale (c : Qc) (p : list Qc) : list Qc := (λ x, c * x)%Qc <$> p.
Definition param_add (p q : list Qc) : result (list Qc) :=
  if decide (length p = length q) then Ok (zip_with Qcplus p q)
  else Raise RuntimeError.

(** ** External collaborators

    [model.QNetwork], [torch.autograd] and [torch.optim.Adam] are used
    through the following capabilities only. *)
Class Torch (State : Type) := {
  (** [QNetwork.forward] on one row of a batch, for given values of the
      network's parameter tensors (in the order of [parameters()]). *)
  QNetwork_forward : list (list Qc) → State → list Qc;
  (** The gradient that [loss.backward()] computes for a leaf of the
      graph of [loss]. *)
  autograd : tensor Qc → nat → list Qc;
  (** The internal state of Adam (step count and moments), the new value
      it gives to a parameter from its value and gradient, and the state
      after one [step()]. *)
  OptState : Type;
  Adam_update : OptState → nat → list Qc → list Qc → list Qc;
  Adam_next : OptState → gmap nat (list Qc) → OptState
}.

(** ** class Agent *)

Module Agent.
Section Defs.
Context {State : Type} `{!Torch State}.

(** The agent and everything it owns.  A network is the list of the
    locations of its parameter tensors; [data] and [grad] hold [p.data]
    and [p.grad] of every parameter tensor [p] ([p.grad] is [None] where
    [grad] has no entry); [optimizer] holds the parameters that were
    handed to [optim.Adam].  [learn_calls] is a ghost field that counts
    the entries into [learn]. *)
Record t := Make {
  state_size : nat;
  action_size : nat;
  double_dqn : bool;
  dueling : bool;
  qnetwork_local : list nat;
  qnetwork_target : list nat;
  optimizer : list nat;
  optimizer_state : OptState;
  memory : ReplayBuffer.t State;
  t_step : Z;
  data : gmap nat (list Qc);
  grad : gmap nat (list Qc);
  learn_calls : nat
}.

Definition set_memory (m : ReplayBuffer.t State) (self : t) : t :=
  Make (state_size self) (action_size self) (double_dqn self) (dueling self)
       (qnetwork_local self) (qnetwork_target self) (optimizer self)
       (optimizer_state self) m (t_step self) (data self) (grad self)
       (learn_calls self).

Definition set_t_step (n : Z) (self : t) : t :=
  Make (state_size self) (action_size self) (double_dqn self) (dueling self)
       (qnetwork_local self) (qnetwork_target self) (optimizer self)
       (optimizer_state self) (memory self) n (data self) (grad self)
       (learn_calls self).

Definition set_data (d : gmap nat (list Qc)) (self : t) : t :=
  Make (state_size self) (action_size self) (double_dqn self) (dueling self)
       (qnetwork_local self) (qnetwork_target self) (optimizer self)
       (optimizer_state self) (memory self) (t_step self) d (grad self)
       (learn_calls self).

Definition set_grad (g : gmap nat (list Qc)) (self : t) : t :=
  Make (state_size self) (action_size self) (double_dqn self) (dueling self)
       (qnetwork_local self) (qnetwork_target self) (optimizer self)
       (optimizer_state self) (memory self) (t_step self) (data self) g
       (learn_calls self).

Definition set_optimizer_state (s : OptState) (self : t) : t :=
  Make (state_size self) (action_size self) (double_dqn self) (dueling self)
       (qnetwork_local self) (qnetwork_target self) (optimizer self)
       s (memory self) (t_step self) (data self) (grad self)
       (learn_calls self).

Definition count_learn (self : t) : t :=
  Make (state_size self) (action_size self) (double_dqn self) (dueling self)
       (qnetwork_local self) (qnetwork_target self) (optimizer self)
       (optimizer_state self) (memory self) (t_step self) (data self)
       (grad self) (S (learn_calls self)).

(** *** Methods that mutate [self]

    A method takes the agent and returns the agent as the call leaves
    it, also when the call raises. *)
Definition M (A : Type) : Type := t → t * result A.

Definition ret {A : Type} (a : A) : M A := λ self, (self, Ok a).

Definition bind {A B : Type} (m : M A) (k : A → M B) : M B := λ self,
  match m self with
  | (self', Ok a) => k a self'
  | (self', Raise e) => (self', Raise e)
  end.

Definition lift {A : Type} (r : result A) : M A := λ self, (self, r).
Definition get : M t := λ self, (self, Ok self).
Definition modify (f : t → t) : M unit := λ self, (f self, Ok tt).

Notation "'let!' x ':=' c 'in' k" := (bind c (λ x, k))
  (at level 10, x name, c at level 100, k at level 200).
Notation "c ';;' k" := (bind c (λ _, k))
  (at level 100, k at level 200, right associativity).

(** [for x in l: body(x)]. *)
Fixpoint for_each {A : Type} (l : list A) (body : A → M unit) : M unit :=
  match l with
  | [] => ret tt
  | x :: l' => body x ;; for_each l' body
  end.

(** [p.data] of a parameter tensor, and of all [parameters()] of a
    network. *)
Definition param (self : t) (p : nat) : list Qc := default [] (data self !! p).
Definition parameters (self : t) (net : list nat) : list (list Qc) :=
  param self <$> net.

(** Calling a network on a batch: row by row, and the result reaches
    every parameter of the network. *)
Definition call (self : t) (net : list nat) (x : tensor (list State))
    : tensor (list (list Qc)) :=
  Tensor (QNetwork_forward (parameters self net) <$> value x)
         (list_to_set net ∪ graph x).

(** [Agent(state_size, action_size, seed, double_dqn, dueling)]:
    [local_params] and [target_params] are the parameter tensors that
    the two calls of the [QNetwork] constructor create, [adam0] the
    state in which [optim.Adam] starts.  The tensors are placed at fresh
    locations, the local ones first. *)
Definition init (state_size action_size : nat) (seed : Z)
    (double_dqn dueling : bool) (local_params target_params : list (list Qc))
    (adam0 : OptState) : t :=
  let qnetwork_local := seq 0 (length local_params) in
  let qnetwork_target := seq (length local_params) (length target_params) in
  Make state_size action_size double_dqn dueling
       qnetwork_local qnetwork_target
       qnetwork_local adam0
       (ReplayBuffer.init action_size BUFFER_SIZE BATCH_SIZE seed)
       0
       (list_to_map (zip qnetwork_local local_params
                     ++ zip qnetwork_target target_params))
       ∅
       0.

(** [act(state, eps)]: [u] is the value of [random.random()] and [r]
    the draw of [random.choice]. *)
Definition act (self : t) (state : State) (eps : Qc) (u : Qc) (r : nat)
    : result Z :=
  let action_values :=
    QNetwork_forward (parameters self (qnetwork_local self)) state in
  if decide (eps < u)%Qc then
    let* a := np_argmax action_values in Ok (Z.of_nat a)
  else random_choice (np_arange (action_size self)) r.

(** The body of the loop of [soft_update]:
    [target_param.data.copy_(tau*local_param.data + (1.0-tau)*target_param.data)]. *)
Definition soft_update_param (tau : Qc) (target_param local_param : nat) : M unit :=
  let! self := get in
  let! blend := lift (param_add (param_scale tau (param self local_param))
                        (param_scale (1 - tau)%Qc (param self target_param))) in
  if decide (length blend = length (param self target_param)) then
    modify (set_data (<[target_param := blend]> (data self)))
  else lift (Raise RuntimeError).

(** [soft_update(local_model, target_model, tau)]. *)
Definition soft_update (local_model target_model : list nat) (tau : Qc)
    : M unit :=
  for_each (zip target_model local_model) (λ '(target_param, local_param),
    soft_update_param tau target_param local_param).

(** The bootstrap values of [learn]: the lines from [target_values] to
    [next_max_values]. *)
Definition next_max_values (self : t) (next_states : list State)
    : result (tensor (list Qc)) :=
  let target_values := detach (call self (qnetwork_target self) (const next_states)) in
  if double_dqn self then
    let local_next_values := call self (qnetwork_local self) (const next_states) in
    let* '(_, local_next_actions) := tensor_max1 local_next_values in
    let local_next_actions := detach local_next_actions in
    tensor_gather1 target_values local_next_actions
  else
    let* '(next_max_values, next_best_actions) := tensor_max1 target_values in
    Ok next_max_values.

(** The bootstrap term of the TD targets of [learn]:
    [gamma * next_max_values * (1 - dones)]. *)
Definition bootstrap (self : t) (experiences : Batch State) (gamma : Qc)
    : result (tensor (list Qc)) :=
  let '(states, actions, rewards, next_states, dones) := experiences in
  let* next_max_values := next_max_values self next_states in
  tensor_binop Qcmult (tensor_scale gamma next_max_values)
               (tensor_rsub 1 (const dones)).

(** The TD targets of [learn]:
    [rewards + gamma * next_max_values * (1 - dones)]. *)
Definition targets (self : t) (experiences : Batch State) (gamma : Qc)
    : result (tensor (list Qc)) :=
  let '(states, actions, rewards, next_states, dones) := experiences in
  let* bootstrap := bootstrap self experiences gamma in
  tensor_binop Qcplus (const rewards) bootstrap.

(** The current estimates of [learn]: the online network's values of
    the actions taken. *)
Definition selected_outputs (self : t) (experiences : Batch State)
    : result (tensor (list Qc)) :=
  let '(states, actions, rewards, next_states, dones) := experiences in
  let outputs := call self (qnetwork_local self) (const states) in
  tensor_gather1 outputs (const actions).

(** [optimizer.zero_grad()]: the gradients of the optimizer's
    parameters that are present are set to zero. *)
Definition zero_grad : M unit :=
  modify (λ self,
    set_grad (foldr (alter (fmap (λ _, 0%Qc))) (grad self) (optimizer self)) self).

(** [loss.backward()]: every leaf of the graph of [loss] receives its
    gradient, added to the one it has. *)
Definition backward (loss : tensor Qc) : M unit :=
  modify (λ self,
    set_grad (set_fold (λ p g,
                match g !! p with
                | Some old => <[p := zip_with Qcplus old (autograd loss p)]> g
                | None => <[p := autograd loss p]> g
                end) (grad self) (graph loss)) self).

(** [optimizer.step()]: every parameter of the optimizer that has a
    gradient is updated by Adam. *)
Definition optimizer_step : M unit :=
  modify (λ self,
    let st := optimizer_state self in
    set_optimizer_state (Adam_next st (grad self))
      (set_data (foldr (λ p d,
                   match grad self !! p with
                   | Some g => alter (λ x, Adam_update st p x g) p d
                   | None => d
                   end) (data self) (optimizer self)) self)).

(** The gradient-descent part of [learn]: from the computation of the
    targets to [optimizer.step()]. *)
Definition gradient_step (experiences : Batch State) (gamma : Qc) : M unit :=
  let! self := get in
  let! targets := lift (targets self experiences gamma) in
  let! selected_outputs := lift (selected_outputs self experiences) in
  zero_grad ;;
  let! loss := lift (mse_loss selected_outputs targets) in
  backward loss ;;
  optimizer_step.

(** [learn(experiences, gamma)]: the gradient step, then the soft update
    of the target network. *)
Definition learn (experiences : Batch State) (gamma : Qc) : M unit :=
  modify count_learn ;;
  gradient_step experiences gamma ;;
  let! self := get in
  soft_update (qnetwork_local self) (qnetwork_target self) TAU.

(** [step(state, action, reward, next_state, done)]: [picks] are the
    positions that [random.sample] draws if the buffer is sampled. *)
Definition step (state : State) (action : Z) (reward : Qc) (next_state : State)
    (done : bool) (picks : list nat) : M unit :=
  modify (λ self,
    set_memory (ReplayBuffer.add (memory self) state action reward next_state done)
               self) ;;
  modify (λ self, set_t_step ((t_step self + 1) `mod` UPDATE_EVERY)%Z self) ;;
  let! self := get in
  if decide (t_step self = 0%Z) then
    if decide (BATCH_SIZE < ReplayBuffer.len (memory self)) then
      let! experiences := lift (ReplayBuffer.sample (memory self) picks) in
      learn experiences GAMMA
    else ret tt
  else ret tt.

End Defs.
Arguments t State {_}.
Arguments M State {_} A.
End Agent.

(** ** IEEE 754 arithmetic

    The entries of a torch tensor of dtype [float32] are binary32
    values and a Python [float] is a binary64 value.  Both are values
    of [spec_float], with the operations of the standard library's
    specification of IEEE 754 (round to nearest, ties to even). *)

Module Float64.

Definition prec : Z := 53.
Definition emax : Z := 1024.

(** The float of an integer literal, [x - y] and [x / y]. *)
Definition of_Z (n : Z) : spec_float := binary_normalize prec emax n 0 false.
Definition sub : spec_float → spec_float → spec_float := SFsub prec emax.
Definition div : spec_float → spec_float → spec_float := SFdiv prec emax.

(** The float of a decimal literal [n / d]: the binary64 value nearest
    to it. *)
Definition of_decimal (n d : Z) : spec_float := div (of_Z n) (of_Z d).

End Float64.

Module Float32.

Definition prec : Z := 24.
Definition emax : Z := 128.

(** [x] is a binary32 value. *)
Definition valid (x : spec_float) : bool := valid_binary prec emax x.

Definition add : spec_float → spec_float → spec_float := SFadd prec emax.
Definition sub : spec_float → spec_float → spec_float := SFsub prec emax.
Definition mul : spec_float → spec_float → spec_float := SFmul prec emax.

(** [x == y] on floats: false when one of them is NaN, true on [+0.0]
    and [-0.0]. *)
Definition eqb : spec_float → spec_float → bool := SFeqb.

Definition is_zero (x : spec_float) : bool :=
  match x with S754_zero _ => true | _ => false end.

(** The binary32 value of an integer, and of a Python float that is
    combined with a float32 tensor. *)
Definition of_Z (n : Z) : spec_float := binary_normalize prec emax n 0 false.
Definition of_float64 (x : spec_float) : spec_float :=
  match x with
  | S754_finite s m e => binary_normalize prec emax (cond_Zopp s (Zpos m)) e s
  | _ => x
  end.

(** The rational number that a finite float stands for. *)
Definition to_Q (x : spec_float) : Q :=
  match x with
  | S754_finite s m e => inject_Z (cond_Zopp s (Zpos m)) * 2 ^ e
  | _ => 0
  end.

End Float32.

(** The module-level constants [GAMMA = 0.99] and [TAU = 1e-3] as the
    Python floats they are. *)
Definition GAMMA_float : spec_float := Float64.of_decimal 99 100.
Definition TAU_float : spec_float := Float64.of_decimal 1 1000.

(** ** The arithmetic of [learn] and [soft_update] on binary32 entries

    The lines of [dqn_agent.py] that compute with tensor entries, on
    tensors of dtype [float32]: a tensor of shape (B, 1) or a flat
    parameter tensor is the list of its entries.  A Python float that
    multiplies a float32 tensor is converted to binary32 first. *)

Module Binary32.

(** [c * t] for a Python float [c], and [c - t] for a Python integer
    [c]. *)
Definition scale (c : spec_float) (t : list spec_float) : list spec_float :=
  Float32.mul (Float32.of_float64 c) <$> t.
Definition rsub (c : Z) (t : list spec_float) : list spec_float :=
  Float32.sub (Float32.of_Z c) <$> t.

(** An entry of [dones] as [sample] collates it:
    [.astype(np.uint8)] and then [.float()]. *)
Definition to_float (n : Z) : spec_float := Float32.of_Z n.

(** The bootstrap term of [learn]:
    [gamma * next_max_values * (1 - dones)]. *)
Definition bootstrap (gamma : spec_float) (next_max_values dones : list spec_float)
    : result (list spec_float) :=
  broadcast2 Float32.mul (scale gamma next_max_values) (rsub 1 dones).

(** The TD targets of [learn]:
    [rewards + gamma * next_max_values * (1 - dones)]. *)
Definition targets (rewards : list spec_float) (gamma : spec_float)
    (next_max_values dones : list spec_float) : result (list spec_float) :=
  let* bootstrap := bootstrap gamma next_max_values dones in
  broadcast2 Float32.add rewards bootstrap.

(** One entry of [tau*local_param.data + (1.0-tau)*target_param.data]. *)
Definition blend (tau : spec_float) (local target : spec_float) : spec_float :=
  Float32.add (Float32.mul (Float32.of_float64 tau) local)
              (Float32.mul (Float32.of_float64 (Float64.sub (Float64.of_Z 1) tau)) target).

(** [p.data] of the parameter tensor at a location, in a store of
    parameter tensors. *)
Definition param (data : gmap nat (list spec_float)) (p : nat) : list spec_float :=
  default [] (data !! p).

Definition param_add (p q : list spec_float) : result (list spec_float) :=
  if decide (length p = length q) then Ok (zip_with Float32.add p q)
  else Raise RuntimeError.

(** The body of the loop of [soft_update]:
    [target_param.data.copy_(tau*local_param.data + (1.0-tau)*target_param.data)].
    The store is returned as the call leaves it. *)
Definition soft_update_param (tau : spec_float) (target_param local_param : nat)
    (data : gmap nat (list spec_float))
    : gmap nat (list spec_float) * result unit :=
  match param_add (scale tau (param data local_param))
                  (scale (Float64.sub (Float64.of_Z 1) tau) (param data target_param)) with
  | Ok blend =>
      if decide (length blend = length (param data target_param)) then
        (<[target_param := blend]> data, Ok tt)
      else (data, Raise RuntimeError)
  | Raise e => (data, Raise e)
  end.

(** [for target_param, local_param in zip(...)]. *)
Fixpoint soft_update_loop (tau : spec_float) (pairs : list (nat * nat))
    (data : gmap nat (list spec_float)) : gmap nat (list spec_float) * result unit :=
  match pairs with
  | [] => (data, Ok tt)
  | (target_param, local_param) :: pairs' =>
      match soft_update_param tau target_param local_param data with
      | (data', Ok _) => soft_update_loop tau pairs' data'
      | (data', Raise e) => (data', Raise e)
      end
  end.

(** [soft_update(local_model, target_model, tau)]. *)
Definition soft_update (local_model target_model : list nat) (tau : spec_float)
    (data : gmap nat (list spec_float))
    : gmap nat (list spec_float) * result unit :=
  soft_update_loop tau (zip target_model local_model) data.

(** The store after [n] consecutive soft updates. *)
Definition soft_updates (n : nat) (local_model target_model : list nat)
    (tau : spec_float) (data : gmap nat (list spec_float))
    : gmap nat (list spec_float) :=
  Nat.iter n (λ d, (soft_update local_model target_model tau d).1) data.

End Binary32.

(** * Vocabulary of the properties *)

Section Vocabulary.
Context {State : Type}.

(** The arguments of one call of [add] (and of [Agent.step]). *)
Definition Transition : Type := State * Z * Qc * State * bool.

Definition add_transition (buf : ReplayBuffer.t State) (tr : Transition)
    : ReplayBuffer.t State :=
  let '(s, a, r, s', d) := tr in ReplayBuffer.add buf s a r s' d.

Definition experience_of (tr : Transition) : Experience State :=
  let '(s, a, r, s', d) := tr in experience s a r s' d.

(** The buffer after a sequence of [add] calls. *)
Definition add_all (buf : ReplayBuffer.t State) (trs : list Transition)
    : ReplayBuffer.t State :=
  foldl add_transition buf trs.

(** What [sample] returns for a drawn list of experiences. *)
Definition collate (es : list (Experience State)) : Batch State :=
  (state <$> es, action <$> es, reward <$> es, next_state <$> es,
   (λ e, to_float (astype_uint8 (done e))) <$> es).

(** [m] is the maximum of [row] and [a] the first position that holds it. *)
Definition first_max_at (row : list Qc) (a : nat) (m : Qc) : Prop :=
  row !! a = Some m
  ∧ (∀ j x, row !! j = Some x → (x ≤ m)%Qc)
  ∧ (∀ j x, j < a → row !! j = Some x → (x < m)%Qc).

Context `{!Torch State}.

(** The action values of the two estimators for one state. *)
Definition q_online (self : Agent.t State) (s : State) : list Qc :=
  QNetwork_forward (Agent.parameters self (Agent.qnetwork_local self)) s.
Definition q_target (self : Agent.t State) (s : State) : list Qc :=
  QNetwork_forward (Agent.parameters self (Agent.qnetwork_target self)) s.

(** Both estimators return one value per action, and there is an action. *)
Definition action_values_shaped (self : Agent.t State) : Prop :=
  0 < Agent.action_size self
  ∧ ∀ s, length (q_online self s) = Agent.action_size self
         ∧ length (q_target self s) = Agent.action_size self.

(** The agent after one call of [step]; a call is given by its
    arguments and by the positions that the generator would draw. *)
Definition step_call (self : Agent.t State) (c : Transition * list nat)
    : Agent.t State :=
  let '((s, a, r, s', d), picks) := c in (Agent.step s a r s' d picks self).1.

(** The agent after a sequence of [step] calls. *)
Definition run (self : Agent.t State) (calls : list (Transition * list nat))
    : Agent.t State :=
  foldl step_call self calls.

(** The two networks share no parameter tensor, a network lists each of
    its tensors once, and the optimizer holds the online ones. *)
Definition separate_networks (self : Agent.t State) : Prop :=
  Agent.optimizer self = Agent.qnetwork_local self
  ∧ NoDup (Agent.qnetwork_target self)
  ∧ ∀ p, p ∈ Agent.qnetwork_target self → p ∉ Agent.qnetwork_local self.

(** Two agents with the same networks, optimizer binding and flags. *)
Definition same_networks (s s' : Agent.t State) : Prop :=
  Agent.qnetwork_local s' = Agent.qnetwork_local s
  ∧ Agent.qnetwork_target s' = Agent.qnetwork_target s
  ∧ Agent.optimizer s' = Agent.optimizer s
  ∧ Agent.action_size s' = Agent.action_size s
  ∧ Agent.double_dqn s' = Agent.double_dqn s.

(** Two agents with the same replay memory, step counter and count of
    [learn] calls. *)
Definition same_schedule (s s' : Agent.t State) : Prop :=
  Agent.memory s' = Agent.memory s
  ∧ Agent.t_step s' = Agent.t_step s
  ∧ Agent.learn_calls s' = Agent.learn_calls s.

(** Only the parameter tensors, their gradients and the state of Adam
    may differ between two agents. *)
Definition params_only (s s' : Agent.t State) : Prop :=
  same_networks s s' ∧ same_schedule s s'.

(** A method keeps a relation between the agent before and after the
    call, whether it returns or raises. *)
Definition preserves {A : Type} (R : Agent.t State → Agent.t State → Prop)
    (m : Agent.M State A) : Prop :=
  ∀ s, R s (m s).1.

(** Paired parameter tensors have the same number of entries. *)
Definition same_shapes (self : Agent.t State) (local_model target_model : list nat)
    : Prop :=
  ∀ tp lp, (tp, lp) ∈ zip target_model local_model →
    length (Agent.param self tp) = length (Agent.param self lp).

(** The Polyak blend of two parameter tensors, entry by entry. *)
Definition polyak (tau : Qc) (online target : list Qc) : list Qc :=
  zip_with (λ o t, tau * o + (1 - tau) * t)%Qc online target.

End Vocabulary.
Arguments Transition State : clear implicits.

(** The positions that [random.sample] chooses in a population of size
    [n]: what it returns on the population of the positions. *)
Definition sample_positions (n k : nat) (draws : list nat) : option (list nat) :=
  match python_random_sample (seq 0 n) k draws with
  | Some (Ok picks) => Some picks
  | _ => None
  end.

(** A renaming of the positions below [n]. *)
Definition renaming (n : nat) (σ : nat → nat) : Prop :=
  (∀ i j, σ i = σ j → i = j) ∧ (∀ i, i < n ↔ σ i < n).

(** ** A tabular estimator

    There are two states, [false] and [true], and the network has one
    parameter tensor per state, holding that state's action values; the
    optimizer subtracts the gradient. *)
Definition tabular : Torch bool := {|
  QNetwork_forward := λ params (s : bool), default [] (params !! (if s then 1 else 0));
  autograd := λ loss p, [1%Qc; 1%Qc];
  OptState := nat;
  Adam_update := λ st p x g, zip_with Qcminus x g;
  Adam_next := λ st g, S st
|}.

Definition q (n : Z) : Qc := Qc_of_Z n.

(** Two actions; in state [false] the online table prefers action 1
    and the target table action 0. *)
Definition table_agent (double_dqn : bool) : @Agent.t bool tabular :=
  @Agent.init bool tabular 1 2 0 double_dqn false
    [[q 1; q 5]; [q 2; q 0]] [[q 7; q 3]; [q 4; q 9]] 0.

(** A transition of the tabular agent and a run of [n] calls of [step]
    that store it, the generator drawing the first [BATCH_SIZE]
    positions. *)
Definition table_transition : Transition bool := (false, 1%Z, q 1, true, true).
Definition table_calls (n : nat) : list (Transition bool * list nat) :=
  replicate n (table_transition, seq 0 BATCH_SIZE).

(** Three transitions, a replay buffer of capacity 10 that has stored
    some transitions, and a batch of two samples, the first terminal. *)
Definition table_transitions : list (Transition bool) :=
  [(false, 1%Z, q 1, true, true);
   (true, 0%Z, q 2, false, false);
   (false, 0%Z, q 3, false, false)].
Definition table_buffer (batch_size : nat) (trs : list (Transition bool))
    : ReplayBuffer.t bool :=
  add_all (ReplayBuffer.init 2 10 batch_size 0) trs.
Definition table_batch : Batch bool :=
  ([false; true], [1%Z; 0%Z], [q 1; q 2], [true; false], [q 1; q 0]).

(** The binary32 values 1.0 and 7.0, the value nearest to 1.00005 and
    the positive infinity. *)
Definition f32_one : spec_float := S754_finite false 8388608 (-23).
Definition f32_seven : spec_float := S754_finite false 14680064 (-21).
Definition f32_stalled : spec_float := S754_finite false 8389027 (-23).
Definition f32_inf : spec_float := S754_infinity false.

(** Two parameter tensors of one entry: an online tensor at location 0
    and a target tensor at location 1. *)
Definition stalled_store : gmap nat (list spec_float) :=
  <[0 := [f32_one]]> (<[1 := [f32_stalled]]> ∅).
Definition table_store : gmap nat (list spec_float) :=
  <[0 := [f32_one; f32_seven]]> (<[1 := [f32_seven; f32_one]]> ∅).

(** The largest finite binary32 value. *)
Definition f32_max : spec_float := S754_finite false 16777215 104.

(** * Properties *)

(** ** The replay memory *)

Section ReplayBufferProperties.
Context {State : Type}.
Implicit Types (trs : list (Transition State)) (tr : Transition State).

Lemma add_transition_items buf tr :
  items (ReplayBuffer.memory (add_transition buf tr)) =
  items (deque_append (ReplayBuffer.memory buf) (Some (experience_of tr))).
Proof. by destruct tr as [[[[s a] r] s'] d]. Qed.

Lemma add_transition_fields buf tr :
  maxlen (ReplayBuffer.memory (add_transition buf tr)) = maxlen (ReplayBuffer.memory buf)
  ∧ ReplayBuffer.batch_size (add_transition buf tr) = ReplayBuffer.batch_size buf
  ∧ ReplayBuffer.action_size (add_transition buf tr) = ReplayBuffer.action_size buf.
Proof. by destruct tr as [[[[s a] r] s'] d]. Qed.

Lemma add_all_snoc buf trs tr :
  add_all buf (trs ++ [tr]) = add_transition (add_all buf trs) tr.
Proof. unfold add_all. by rewrite foldl_snoc. Qed.

Lemma add_all_fields buf trs :
  maxlen (ReplayBuffer.memory (add_all buf trs)) = maxlen (ReplayBuffer.memory buf)
  ∧ ReplayBuffer.batch_size (add_all buf trs) = ReplayBuffer.batch_size buf
  ∧ ReplayBuffer.action_size (add_all buf trs) = ReplayBuffer.action_size buf.
Proof.
  induction trs as [|tr trs IH] using rev_ind; [done|].
  rewrite add_all_snoc.
  destruct (add_transition_fields (add_all buf trs) tr) as (-> & -> & ->).
  exact IH.
Qed.

(** The deque of a new buffer after any sequence of [add] calls holds
    the last [buffer_size] experiences, oldest first. *)
Lemma add_all_items a C b seed trs :
  items (ReplayBuffer.memory (add_all (ReplayBuffer.init a C b seed) trs)) =
  (Some ∘ experience_of) <$> drop (length trs - C) trs.
Proof.
  induction trs as [|tr trs IH] using rev_ind.
  - by rewrite drop_nil.
  - rewrite add_all_snoc, add_transition_items.
    destruct (add_all_fields (ReplayBuffer.init a C b seed) trs) as (Hmax & _).
    unfold deque_append. cbn [items maxlen]. rewrite Hmax, IH. cbn [ReplayBuffer.init ReplayBuffer.memory maxlen].
    rewrite length_app, !length_fmap, !length_drop, length_app. cbn [length].
    case_decide as Hfull.
    + change [Some (experience_of tr)] with ((Some ∘ experience_of) <$> [tr]).
      rewrite <- fmap_app, <- fmap_drop. f_equal.
      rewrite <- drop_app_le by lia. rewrite drop_drop. f_equal. lia.
    + change [Some (experience_of tr)] with ((Some ∘ experience_of) <$> [tr]).
      rewrite <- fmap_app. f_equal.
      replace (length trs - C) with 0 by lia.
      replace (length trs + 1 - C) with 0 by lia. done.
Qed.

Lemma add_all_len a C b seed trs :
  ReplayBuffer.len (add_all (ReplayBuffer.init a C b seed) trs) = length trs `min` C.
Proof.
  unfold ReplayBuffer.len. rewrite add_all_items, length_fmap, length_drop. lia.
Qed.


Lemma not_None_Some {A : Type} (l : list A) : not_None (Some <$> l) = l.
Proof. unfold not_None. induction l as [|x l IH]; [done|]. cbn. by rewrite IH. Qed.

Lemma np_vstack_ok {A : Type} (rows : list A) : rows ≠ [] → np_vstack rows = Ok rows.
Proof. by destruct rows. Qed.

(** [sample] on a draw that holds no [None]. *)
Lemma sample_collate buf picks (es : list (Experience State)) :
  random_sample (items (ReplayBuffer.memory buf)) (ReplayBuffer.batch_size buf) picks
    = Ok (Some <$> es) →
  es ≠ [] →
  ReplayBuffer.sample buf picks = Ok (collate es).
Proof.
  intros Hdraw Hne. unfold ReplayBuffer.sample. rewrite Hdraw. cbn [result_bind].
  rewrite not_None_Some.
  assert (∀ (B : Type) (f : Experience State → B), np_vstack (f <$> es) = Ok (f <$> es)) as Hv.
  { intros B f. apply np_vstack_ok. by destruct es. }
  rewrite !Hv. cbn [result_bind]. unfold collate.
  by rewrite <- list_fmap_compose.
Qed.

(** The elements found at the drawn positions. *)
Lemma picks_lookup {A : Type} (l : list A) (picks : list nat) :
  Forall (λ i, i < length l) picks →
  ∃ xs, omap (λ i, (Some <$> l) !! i) picks = Some <$> xs
        ∧ length xs = length picks
        ∧ ∀ j i, picks !! j = Some i → xs !! j = l !! i.
Proof.
  induction 1 as [|i picks Hi _ IH].
  - exists []. split_and!; [done..|]. intros j i Hj. by rewrite lookup_nil in Hj.
  - destruct IH as (xs & Hxs & Hlen & Hlook).
    destruct (lookup_lt_is_Some_2 l i Hi) as [x Hx].
    exists (x :: xs). split_and!.
    + cbn. rewrite list_lookup_fmap, Hx. cbn. by rewrite Hxs.
    + cbn. by rewrite Hlen.
    + intros [|j] i' Hj; cbn in *; [by simplify_eq|by apply Hlook].
Qed.

(** [sample] on a buffer that was filled by [add]: the experiences at
    the drawn positions, collated. *)
Lemma sample_filled a C b seed trs picks :
  let buf := add_all (ReplayBuffer.init a C b seed) trs in
  0 < b → b ≤ ReplayBuffer.len buf →
  sample_picks (ReplayBuffer.len buf) b picks →
  ∃ es, random_sample (items (ReplayBuffer.memory buf)) b picks = Ok (Some <$> es)
        ∧ ReplayBuffer.sample buf picks = Ok (collate es)
        ∧ length es = b
        ∧ ∀ j i, picks !! j = Some i →
            ∃ e, items (ReplayBuffer.memory buf) !! i = Some (Some e)
                 ∧ es !! j = Some e.
Proof.
  intros buf Hpos Hle (Hlen & Hnodup & Hrange).
  pose proof (add_all_items a C b seed trs) as Hitems. fold buf in Hitems.
  destruct (add_all_fields (ReplayBuffer.init a C b seed) trs) as (_ & Hb & _).
  fold buf in Hb. cbn in Hb.
  set (xs := experience_of <$> drop (length trs - C) trs).
  assert (items (ReplayBuffer.memory buf) = Some <$> xs) as Hxs.
  { rewrite Hitems. unfold xs. by rewrite <- list_fmap_compose. }
  assert (ReplayBuffer.len buf = length xs) as Hlenxs.
  { unfold ReplayBuffer.len. by rewrite Hxs, length_fmap. }
  rewrite Hlenxs in Hrange.
  destruct (picks_lookup xs picks Hrange) as (es & Hes & Hles & Hlook).
  assert (random_sample (items (ReplayBuffer.memory buf)) b picks = Ok (Some <$> es)) as Hdraw.
  { unfold random_sample. rewrite decide_True by done. by rewrite Hxs, Hes. }
  exists es. split_and!.
  - done.
  - apply sample_collate; [by rewrite Hb|]. destruct es; [cbn in Hles; lia|done].
  - lia.
  - intros j i Hj. rewrite Hxs, list_lookup_fmap.
    assert (i < length xs) as Hi by (eapply Forall_lookup_1 in Hrange; eauto).
    destruct (lookup_lt_is_Some_2 xs i Hi) as [e He].
    exists e. rewrite He. split; [done|]. rewrite (Hlook j i Hj). done.
Qed.

(** [sample] on a buffer that holds fewer than [batch_size] experiences. *)
Lemma sample_short (buf : ReplayBuffer.t State) picks :
  ReplayBuffer.len buf < ReplayBuffer.batch_size buf →
  ReplayBuffer.sample buf picks = Raise ValueError.
Proof.
  intros Hlt. unfold ReplayBuffer.sample, random_sample.
  unfold ReplayBuffer.len in Hlt. by rewrite decide_False by lia.
Qed.

(** C4.  For every sequence of [add] calls on a buffer built with
    capacity [C], the size never exceeds [C]; and after [C + k]
    insertions the buffer holds exactly the last [C] experiences in
    insertion order, the oldest [k] having been evicted first. *)
Theorem replay_buffer_capacity_fifo a C b seed :
  (∀ trs, ReplayBuffer.len (add_all (ReplayBuffer.init a C b seed) trs) ≤ C)
  ∧ (∀ trs k, length trs = C + k →
       items (ReplayBuffer.memory (add_all (ReplayBuffer.init a C b seed) trs))
       = (Some ∘ experience_of) <$> drop k trs
       ∧ ReplayBuffer.len (add_all (ReplayBuffer.init a C b seed) trs) = C).
Proof.
  split.
  - intros trs. rewrite add_all_len. lia.
  - intros trs k Hlen. rewrite add_all_len, add_all_items.
    split; [|lia]. do 2 f_equal. lia.
Qed.

(** C10, as the code has it.  On a buffer filled by [add] with a batch
    size [b ≥ 1] and at least [b] experiences, the draw holds no [None],
    so the filter of the comprehensions removes nothing, and [sample]
    returns five arrays of length [b]. *)
Theorem sample_five_arrays_of_batch_size a C b seed trs picks :
  let buf := add_all (ReplayBuffer.init a C b seed) trs in
  0 < b → b ≤ ReplayBuffer.len buf → sample_picks (ReplayBuffer.len buf) b picks →
  ∃ experiences,
    random_sample (items (ReplayBuffer.memory buf)) (ReplayBuffer.batch_size buf) picks
      = Ok experiences
    ∧ length experiences = b
    ∧ length (not_None experiences) = length experiences
    ∧ ∃ states actions rewards next_states dones,
        ReplayBuffer.sample buf picks = Ok (states, actions, rewards, next_states, dones)
        ∧ length states = b ∧ length actions = b ∧ length rewards = b
        ∧ length next_states = b ∧ length dones = b.
Proof.
  intros buf Hpos Hle Hpicks.
  destruct (sample_filled a C b seed trs picks Hpos Hle Hpicks)
    as (es & Hdraw & Hs & Hlen & _).
  destruct (add_all_fields (ReplayBuffer.init a C b seed) trs) as (_ & Hb & _).
  fold buf in Hb. cbn in Hb.
  exists (Some <$> es). rewrite Hb, not_None_Some, length_fmap.
  split_and!; [done..|].
  eexists _, _, _, _, _. split; [exact Hs|].
  by rewrite !length_fmap.
Qed.

End ReplayBufferProperties.



(** ** The numeric library *)

Section NumericProperties.

Lemma first_max_at_snoc_new pre bi b x :
  first_max_at pre bi b → (b < x)%Qc → first_max_at (pre ++ [x]) (length pre) x.
Proof.
  intros (Hb & Hmax & Hfirst) Hlt. split_and!.
  - by rewrite lookup_app_r, Nat.sub_diag by lia.
  - intros j y Hj. apply lookup_app_Some in Hj as [Hj|[_ Hj]].
    + apply Qclt_le_weak. eapply Qcle_lt_trans; [by eapply Hmax|done].
    + apply list_lookup_singleton_Some in Hj as [_ <-]. apply Qcle_refl.
  - intros j y Hlt' Hj. rewrite lookup_app_l in Hj by done.
    eapply Qcle_lt_trans; [by eapply Hmax|done].
Qed.

Lemma first_max_at_snoc_keep pre bi b x :
  first_max_at pre bi b → ¬ (b < x)%Qc → first_max_at (pre ++ [x]) bi b.
Proof.
  intros (Hb & Hmax & Hfirst) Hnlt. split_and!.
  - by apply lookup_app_l_Some.
  - intros j y Hj. apply lookup_app_Some in Hj as [Hj|[_ Hj]].
    + by eapply Hmax.
    + apply list_lookup_singleton_Some in Hj as [_ <-]. by apply Qcnot_lt_le.
  - intros j y Hlt' Hj. apply lookup_lt_Some in Hb.
    rewrite lookup_app_l in Hj by lia. by eapply Hfirst.
Qed.

(** The scan keeps the first maximum of what it has seen. *)
Lemma first_max_scan l : ∀ pre bi b,
  first_max_at pre bi b →
  first_max_at (pre ++ l) (first_max bi b (length pre) l).1
               (first_max bi b (length pre) l).2.
Proof.
  induction l as [|x l IH]; intros pre bi b Hpre.
  - by rewrite app_nil_r.
  - cbn [first_max]. rewrite (cons_middle x pre l), app_assoc.
    replace (S (length pre)) with (length (pre ++ [x]))
      by (rewrite length_app; cbn; lia).
    case_decide as Hlt.
    + apply IH. by eapply first_max_at_snoc_new.
    + apply IH. by apply first_max_at_snoc_keep.
Qed.

Lemma first_max_at_singleton x : first_max_at [x] 0 x.
Proof.
  split_and!; [done| |intros; lia].
  intros j y Hj. apply list_lookup_singleton_Some in Hj as [_ <-]. apply Qcle_refl.
Qed.

(** [np.argmax] returns the first position of the maximum. *)
Lemma np_argmax_first_max row :
  row ≠ [] → ∃ a m, np_argmax row = Ok a ∧ first_max_at row a m.
Proof.
  destruct row as [|x l]; [done|]. intros _.
  eexists _, _. split; [done|].
  apply (first_max_scan l [x] 0 x), first_max_at_singleton.
Qed.

(** A row of [torch.max(t, 1)]: the maximum and its first position. *)
Lemma row_max_first_max row :
  row ≠ [] → ∃ a m, row_max row = Ok (m, a) ∧ first_max_at row a m.
Proof.
  destruct row as [|x l]; [done|]. intros _.
  eexists _, _. split; [done|].
  apply (first_max_scan l [x] 0 x), first_max_at_singleton.
Qed.

Lemma first_max_at_unique row a m a' m' :
  first_max_at row a m → first_max_at row a' m' → a = a' ∧ m = m'.
Proof.
  intros (Ha & Hmax & Hfirst) (Ha' & Hmax' & Hfirst').
  destruct (Nat.lt_trichotomy a a') as [Hlt|[->|Hlt]].
  - pose proof (Hfirst' _ _ Hlt Ha) as H1. pose proof (Hmax _ _ Ha') as H2.
    exfalso. by eapply Qclt_not_le.
  - split; congruence.
  - pose proof (Hfirst _ _ Hlt Ha') as H1. pose proof (Hmax' _ _ Ha) as H2.
    exfalso. by eapply Qclt_not_le.
Qed.

(** [result_all] succeeds when every call does, and lists the results. *)
Lemma result_all_ok {A B : Type} (f : A → result B) (l : list A) :
  Forall (λ x, ∃ y, f x = Ok y) l →
  ∃ ys, result_all f l = Ok ys ∧ Forall2 (λ x y, f x = Ok y) l ys.
Proof.
  induction 1 as [|x l [y Hy] _ (ys & Hys & Hall)].
  - by exists [].
  - exists (y :: ys). cbn. rewrite Hy. cbn. rewrite Hys. split; [done|].
    by constructor.
Qed.

(** [torch.max(t, 1)] on rows that are not empty. *)
Lemma torch_max1_ok (t : list (list Qc)) :
  Forall (λ row, row ≠ []) t →
  ∃ values indices,
    torch_max1 t = Ok (values, indices)
    ∧ length values = length t ∧ length indices = length t
    ∧ ∀ i row, t !! i = Some row →
        ∃ a m, values !! i = Some m ∧ indices !! i = Some a ∧ first_max_at row a m.
Proof.
  intros Hne.
  destruct (result_all_ok row_max t) as (r & Hr & Hall).
  { eapply List.Forall_impl; [|exact Hne]. intros row Hrow.
    destruct (row_max_first_max row Hrow) as (a & m & Hm & _). eauto. }
  exists (r.*1), (r.*2). unfold torch_max1. rewrite Hr. cbn.
  pose proof Hall as Hlen; apply Forall2_length in Hlen.
  split_and!; [done|by rewrite length_fmap|by rewrite length_fmap|].
  intros i row Hi.
  destruct (Forall2_lookup_l _ _ _ _ _ Hall Hi) as ([m a] & Hri & Hrow).
  exists a, m. rewrite !list_lookup_fmap, Hri. split_and!; [done..|].
  destruct (row_max_first_max row) as (a' & m' & Hm' & Hfm).
  { eapply Forall_lookup_1 in Hne; eauto. }
  rewrite Hrow in Hm'. by injection Hm' as <- <-.
Qed.

(** [torch.gather(t, 1, index)] with indices inside the rows. *)
Lemma torch_gather1_ok (t : list (list Qc)) (index : list nat) :
  length index = length t →
  (∀ i row a, t !! i = Some row → index !! i = Some a → a < length row) →
  ∃ v, torch_gather1 t (Z.of_nat <$> index) = Ok v
       ∧ length v = length t
       ∧ ∀ i row a, t !! i = Some row → index !! i = Some a → v !! i = row !! a.
Proof.
  intros Hlen Hin. unfold torch_gather1.
  rewrite decide_True by (rewrite length_fmap; lia).
  destruct (result_all_ok (λ p, row_gather p.1 p.2) (zip t (Z.of_nat <$> index)))
    as (v & Hv & Hall).
  { apply Forall_lookup_2. intros i [row z] Hi.
    apply lookup_zip_with_Some in Hi as (row' & z' & [= <- <-] & Hrow & Hz).
    rewrite list_lookup_fmap in Hz.
    destruct (index !! i) as [a|] eqn:Ha; [|done]. cbn in Hz. simplify_eq.
    pose proof (Hin _ _ _ Hrow Ha) as Hlt.
    destruct (lookup_lt_is_Some_2 row a Hlt) as [x Hx].
    exists x. unfold row_gather. cbn. rewrite decide_True by lia.
    by rewrite Nat2Z.id, Hx. }
  exists v. split; [done|].
  pose proof Hall as Hl; apply Forall2_length in Hl.
  rewrite length_zip_with, length_fmap in Hl.
  split; [lia|].
  intros i row a Hrow Ha.
  assert (zip t (Z.of_nat <$> index) !! i = Some (row, Z.of_nat a)) as Hz.
  { apply lookup_zip_with_Some. exists row, (Z.of_nat a).
    by rewrite list_lookup_fmap, Ha. }
  destruct (Forall2_lookup_l _ _ _ _ _ Hall Hz) as (x & Hx & Hg).
  rewrite Hx. unfold row_gather in Hg. cbn in Hg.
  rewrite decide_True, Nat2Z.id in Hg by lia.
  destruct (row !! a); [by injection Hg as ->|discriminate].
Qed.

(** Element-wise operations on two columns of the same length. *)
Lemma broadcast2_same_length {A : Type} (f : A → A → A) (a b : list A) :
  length a = length b → broadcast2 f a b = Ok (zip_with f a b).
Proof. intros Hlen. unfold broadcast2. by rewrite decide_True. Qed.

End NumericProperties.

(** ** The targets of [learn] *)

Section TargetProperties.
Context {State : Type} `{!Torch State}.
Implicit Types (self : Agent.t State) (es : list (Experience State)).

Lemma shaped_rows_nonempty self (f : State → list Qc) (l : list State) :
  0 < Agent.action_size self →
  (∀ s, length (f s) = Agent.action_size self) →
  Forall (λ row, row ≠ []) (f <$> l).
Proof.
  intros Hpos Hlen. apply Forall_fmap, Forall_forall. intros s _. cbn.
  specialize (Hlen s). destruct (f s); [cbn in Hlen; lia|done].
Qed.

(** The bootstrap values: they are computed, they reach no parameter
    tensor, and per sample they are the target network's value at the
    online network's first maximum (Double DQN) or the target network's
    maximum. *)
Lemma next_max_values_spec self (next_states : list State) :
  action_values_shaped self →
  ∃ nmv, Agent.next_max_values self next_states = Ok nmv
    ∧ graph nmv = ∅
    ∧ length (value nmv) = length next_states
    ∧ ∀ i s, next_states !! i = Some s →
        (Agent.double_dqn self = true →
           ∃ a m v, first_max_at (q_online self s) a m
                    ∧ q_target self s !! a = Some v
                    ∧ value nmv !! i = Some v)
        ∧ (Agent.double_dqn self = false →
           ∃ a m, first_max_at (q_target self s) a m
                  ∧ value nmv !! i = Some m).
Proof.
  intros (Hpos & Hshape). unfold Agent.next_max_values.
  set (tv := q_target self <$> next_states).
  set (lv := q_online self <$> next_states).
  assert (Forall (λ row, row ≠ []) tv) as Htv.
  { apply (shaped_rows_nonempty self); [done|]. intros s. apply Hshape. }
  assert (Forall (λ row, row ≠ []) lv) as Hlv.
  { apply (shaped_rows_nonempty self); [done|]. intros s. apply Hshape. }
  destruct (Agent.double_dqn self) eqn:Hd.
  - destruct (torch_max1_ok lv Hlv) as (values & indices & Hmax & Hlv1 & Hli & Hspec).
    destruct (torch_gather1_ok tv indices) as (v & Hv & Hlenv & Hg).
    { unfold tv, lv in *. by rewrite Hli, !length_fmap. }
    { intros i row a Hrow Ha. unfold tv, lv in *.
      rewrite list_lookup_fmap in Hrow.
      destruct (next_states !! i) as [s|] eqn:Hs; [|done]. cbn in Hrow. simplify_eq.
      destruct (Hspec i (q_online self s)) as (a' & m & _ & Ha' & Hfm & _).
      { by rewrite list_lookup_fmap, Hs. }
      rewrite Ha in Ha'. simplify_eq.
      apply lookup_lt_Some in Hfm.
      destruct (Hshape s) as [H1 H2]. lia. }
    unfold tensor_max1, Agent.call, detach, const. cbn [value graph].
    change (QNetwork_forward (Agent.parameters self (Agent.qnetwork_local self))
              <$> next_states) with lv.
    change (QNetwork_forward (Agent.parameters self (Agent.qnetwork_target self))
              <$> next_states) with tv.
    rewrite Hmax. cbn [result_bind].
    unfold tensor_gather1. cbn [value graph]. rewrite Hv. cbn [result_bind].
    eexists. split; [done|]. cbn [value graph].
    split_and!; [done|unfold tv in Hlenv; by rewrite Hlenv, length_fmap|].
    intros i s Hs. split; [intros _|done].
    destruct (Hspec i (q_online self s)) as (a & m & _ & Ha & Hfm).
    { unfold lv. by rewrite list_lookup_fmap, Hs. }
    assert (tv !! i = Some (q_target self s)) as Hrow.
    { unfold tv. by rewrite list_lookup_fmap, Hs. }
    assert (a < length (q_target self s)) as Hlt.
    { destruct Hfm as (Hfm & _). apply lookup_lt_Some in Hfm.
      destruct (Hshape s) as [H1 H2]. lia. }
    destruct (lookup_lt_is_Some_2 _ _ Hlt) as [x Hx].
    exists a, m, x. split_and!; [done..|].
    by rewrite (Hg i _ a Hrow Ha).
  - destruct (torch_max1_ok tv Htv) as (values & indices & Hmax & Hlv1 & Hli & Hspec).
    unfold tensor_max1, Agent.call, detach, const. cbn [value graph].
    change (QNetwork_forward (Agent.parameters self (Agent.qnetwork_target self))
              <$> next_states) with tv.
    rewrite Hmax. cbn [result_bind].
    eexists. split; [done|]. cbn [value graph].
    split_and!; [done|unfold tv in Hlv1; by rewrite Hlv1, length_fmap|].
    intros i s Hs. split; [done|intros _].
    destruct (Hspec i (q_target self s)) as (a & m & Hm & _ & Hfm).
    { unfold tv. by rewrite list_lookup_fmap, Hs. }
    by exists a, m.
Qed.

(** The bootstrap term and the targets of a batch whose columns have
    one entry per sample. *)
Lemma bootstrap_spec self states actions rewards next_states dones gamma :
  action_values_shaped self →
  length dones = length next_states →
  ∃ nmv boot,
    Agent.next_max_values self next_states = Ok nmv
    ∧ Agent.bootstrap self (states, actions, rewards, next_states, dones) gamma = Ok boot
    ∧ graph boot = ∅
    ∧ length (value boot) = length next_states
    ∧ ∀ i nm d, value nmv !! i = Some nm → dones !! i = Some d →
        value boot !! i = Some (gamma * nm * (1 - d))%Qc.
Proof.
  intros Hshape Hlen.
  destruct (next_max_values_spec self next_states Hshape) as (nmv & Hnmv & Hg & Hl & _).
  exists nmv. unfold Agent.bootstrap. rewrite Hnmv. cbn [result_bind].
  unfold tensor_binop, tensor_scale, tensor_rsub, const. cbn [value graph].
  rewrite broadcast2_same_length by (by rewrite !length_fmap, Hl, Hlen).
  cbn [result_bind]. eexists. split_and!; [done..| | |].
  - cbn [graph]. rewrite Hg. set_solver.
  - cbn [value]. rewrite length_zip_with, !length_fmap. lia.
  - intros i nm d Hnm Hd. cbn [value].
    apply lookup_zip_with_Some. exists (gamma * nm)%Qc, (1 - d)%Qc.
    by rewrite !list_lookup_fmap, Hnm, Hd.
Qed.

Lemma targets_spec self states actions rewards next_states dones gamma :
  action_values_shaped self →
  length dones = length next_states →
  length rewards = length next_states →
  ∃ nmv boot tg,
    Agent.next_max_values self next_states = Ok nmv
    ∧ Agent.bootstrap self (states, actions, rewards, next_states, dones) gamma = Ok boot
    ∧ Agent.targets self (states, actions, rewards, next_states, dones) gamma = Ok tg
    ∧ graph tg = ∅
    ∧ length (value tg) = length next_states
    ∧ ∀ i r nm d, rewards !! i = Some r → value nmv !! i = Some nm →
        dones !! i = Some d →
        value boot !! i = Some (gamma * nm * (1 - d))%Qc
        ∧ value tg !! i = Some (r + gamma * nm * (1 - d))%Qc.
Proof.
  intros Hshape Hld Hlr.
  destruct (bootstrap_spec self states actions rewards next_states dones gamma
              Hshape Hld) as (nmv & boot & Hnmv & Hboot & Hg & Hl & Hv).
  exists nmv, boot. unfold Agent.targets. rewrite Hboot. cbn [result_bind].
  unfold tensor_binop, const. cbn [value graph].
  rewrite broadcast2_same_length by lia.
  cbn [result_bind]. eexists. split_and!; [done..| | |].
  - cbn [graph]. rewrite Hg. set_solver.
  - cbn [value]. rewrite length_zip_with. lia.
  - intros i r nm d Hr Hnm Hd. cbn [value]. split; [by apply Hv|].
    apply lookup_zip_with_Some. exists r, (gamma * nm * (1 - d))%Qc.
    split_and!; [done..|]. by apply Hv.
Qed.

(** C1.  With [double_dqn] set, the bootstrap action of every sample is
    the (first) argmax of the online estimator's action values on the
    next state, and the bootstrapped value is the target estimator's
    value at that index; with the flag unset, the bootstrapped value is
    the maximum of the target estimator's action values. *)
Theorem double_dqn_bootstrap self (next_states : list State) :
  action_values_shaped self →
  ∃ nmv, Agent.next_max_values self next_states = Ok nmv
    ∧ length (value nmv) = length next_states
    ∧ ∀ i s, next_states !! i = Some s →
        (Agent.double_dqn self = true →
           ∃ a m v, first_max_at (q_online self s) a m
                    ∧ q_target self s !! a = Some v
                    ∧ value nmv !! i = Some v)
        ∧ (Agent.double_dqn self = false →
           ∃ a m, first_max_at (q_target self s) a m
                  ∧ value nmv !! i = Some m).
Proof.
  intros Hshape.
  destruct (next_max_values_spec self next_states Hshape) as (nmv & Hnmv & _ & Hl & Hv).
  by exists nmv.
Qed.

(** A batch returned by [sample] is the collation of the drawn
    experiences that are not [None]. *)
Lemma sample_Ok_collate (buf : ReplayBuffer.t State) picks batch :
  ReplayBuffer.sample buf picks = Ok batch →
  ∃ experiences,
    random_sample (items (ReplayBuffer.memory buf)) (ReplayBuffer.batch_size buf) picks
      = Ok experiences
    ∧ batch = collate (not_None experiences).
Proof.
  unfold ReplayBuffer.sample. intros Hs.
  destruct (random_sample _ _ _) as [experiences|]; [|discriminate].
  exists experiences. split; [done|]. cbn [result_bind] in Hs.
  set (es := not_None experiences) in *.
  destruct es as [|e es']; [discriminate|].
  cbn in Hs. injection Hs as <-. unfold collate. cbn.
  by rewrite <- list_fmap_compose.
Qed.

End TargetProperties.

(** ** Methods of the agent: what a call leaves unchanged *)

Section FrameProperties.
Context {State : Type} `{!Torch State}.
Implicit Types (s self : Agent.t State).

Lemma result_bind_Ok {A B : Type} (r : result A) (k : A → result B) b :
  result_bind r k = Ok b → ∃ a, r = Ok a ∧ k a = Ok b.
Proof. destruct r as [a|e]; [|discriminate]. intros Hk. by exists a. Qed.

Lemma preserves_ret {A} R (a : A) : Reflexive R → preserves R (Agent.ret a).
Proof. intros HR s. apply HR. Qed.

Lemma preserves_lift {A} R (r : result A) : Reflexive R → preserves R (Agent.lift r).
Proof. intros HR s. apply HR. Qed.

Lemma preserves_get R : Reflexive R → preserves R Agent.get.
Proof. intros HR s. apply HR. Qed.

Lemma preserves_modify R f : (∀ s, R s (f s)) → preserves R (Agent.modify f).
Proof. intros Hf s. apply Hf. Qed.

Lemma preserves_bind {A B} R (m : Agent.M State A) (k : A → Agent.M State B) :
  Transitive R → preserves R m → (∀ a, preserves R (k a)) →
  preserves R (Agent.bind m k).
Proof.
  intros HR Hm Hk s. unfold Agent.bind. specialize (Hm s).
  destruct (m s) as [s' [a|e]]; cbn in *; [|done].
  etrans; [exact Hm|]. apply Hk.
Qed.

Lemma preserves_for_each {A} R (l : list A) (body : A → Agent.M State unit) :
  Reflexive R → Transitive R → (∀ x, preserves R (body x)) →
  preserves R (Agent.for_each l body).
Proof.
  intros Hr Ht Hbody. induction l as [|x l IH]; cbn [Agent.for_each].
  - by apply preserves_ret.
  - apply preserves_bind; [done|apply Hbody|]. intros _. exact IH.
Qed.

#[local] Instance same_networks_refl : Reflexive (@same_networks State _).
Proof. by intros s. Qed.
#[local] Instance same_networks_trans : Transitive (@same_networks State _).
Proof.
  intros s1 s2 s3 (?&?&?&?&?) (?&?&?&?&?). unfold same_networks. split_and!; congruence.
Qed.
#[local] Instance same_schedule_refl : Reflexive (@same_schedule State _).
Proof. by intros s. Qed.
#[local] Instance same_schedule_trans : Transitive (@same_schedule State _).
Proof.
  intros s1 s2 s3 (?&?&?) (?&?&?). unfold same_schedule. split_and!; congruence.
Qed.

#[local] Instance params_only_refl : Reflexive params_only.
Proof. by intros s. Qed.
#[local] Instance params_only_trans : Transitive params_only.
Proof. intros s1 s2 s3 [? ?] [? ?]. split; by etrans. Qed.

Lemma soft_update_param_params_only tau tp lp :
  preserves params_only (Agent.soft_update_param tau tp lp).
Proof.
  unfold Agent.soft_update_param.
  apply preserves_bind; [apply _|by apply preserves_get|]. intros self.
  apply preserves_bind; [apply _|by apply preserves_lift|]. intros blend.
  case_decide; [by apply preserves_modify|by apply preserves_lift].
Qed.

Lemma soft_update_params_only local_model target_model tau :
  preserves params_only (Agent.soft_update local_model target_model tau).
Proof.
  unfold Agent.soft_update. apply preserves_for_each; [apply _..|].
  intros [tp lp]. apply soft_update_param_params_only.
Qed.

Lemma gradient_step_params_only experiences gamma :
  preserves params_only (Agent.gradient_step experiences gamma).
Proof.
  unfold Agent.gradient_step.
  apply preserves_bind; [apply _|by apply preserves_get|]. intros self.
  apply preserves_bind; [apply _|by apply preserves_lift|]. intros tg.
  apply preserves_bind; [apply _|by apply preserves_lift|]. intros so.
  apply preserves_bind; [apply _|by apply preserves_modify|]. intros _.
  apply preserves_bind; [apply _|by apply preserves_lift|]. intros loss.
  apply preserves_bind; [apply _|by apply preserves_modify|]. intros _.
  by apply preserves_modify.
Qed.

Lemma step_same_networks st a r st' d picks :
  preserves same_networks (Agent.step st a r st' d picks).
Proof.
  unfold Agent.step.
  apply preserves_bind; [apply _|by apply preserves_modify|]. intros _.
  apply preserves_bind; [apply _|by apply preserves_modify|]. intros _.
  apply preserves_bind; [apply _|by apply preserves_get|]. intros self.
  repeat case_decide; try by apply preserves_ret.
  apply preserves_bind; [apply _|by apply preserves_lift|]. intros experiences.
  unfold Agent.learn.
  apply preserves_bind; [apply _|by apply preserves_modify|]. intros _.
  apply preserves_bind; [apply _| |].
  { intros s. apply gradient_step_params_only. }
  intros _. apply preserves_bind; [apply _|by apply preserves_get|]. intros self'.
  intros s. apply soft_update_params_only.
Qed.

End FrameProperties.

(** ** The soft update of the target network *)

Section SoftUpdateProperties.
Context {State : Type} `{!Torch State}.
Implicit Types (s self : Agent.t State).

Lemma param_set_data s d p :
  Agent.param (Agent.set_data d s) p = default [] (d !! p).
Proof. done. Qed.

Lemma polyak_length tau (o t : list Qc) :
  length o = length t → length (polyak tau o t) = length t.
Proof. intros Hl. unfold polyak. rewrite length_zip_with. lia. Qed.


(** One iteration of the loop: the blend is written when the two
    tensors have the same number of entries, and the call raises
    otherwise. *)
Lemma soft_update_param_eq tau tp lp s :
  Agent.soft_update_param tau tp lp s =
  if decide (length (Agent.param s lp) = length (Agent.param s tp)) then
    (Agent.set_data (<[tp := polyak tau (Agent.param s lp) (Agent.param s tp)]>
                       (Agent.data s)) s, Ok tt)
  else (s, Raise RuntimeError).
Proof.
  unfold Agent.soft_update_param, Agent.bind, Agent.get, Agent.lift, param_add, param_scale.
  cbn. rewrite !length_fmap. case_decide as Hlen; cbn; [|done].
  rewrite length_zip_with, !length_fmap.
  rewrite decide_True by lia. unfold Agent.modify, polyak.
  by rewrite zip_with_fmap_l, zip_with_fmap_r.
Qed.

Lemma for_each_cons {A} (x : A) l (body : A → Agent.M State unit) s :
  Agent.for_each (x :: l) body s =
  match body x s with
  | (s1, Ok _) => Agent.for_each l body s1
  | (s1, Raise e) => (s1, Raise e)
  end.
Proof. done. Qed.

(** The loop writes only to the target tensors of its pairs. *)
Lemma soft_update_pairs_frame tau (pairs : list (nat * nat)) s p :
  p ∉ pairs.*1 →
  Agent.data (Agent.for_each pairs (λ '(tp, lp), Agent.soft_update_param tau tp lp) s).1 !! p
  = Agent.data s !! p.
Proof.
  revert s. induction pairs as [|[tp lp] pairs IH]; intros s Hp; [done|].
  rewrite for_each_cons, soft_update_param_eq.
  cbn in Hp. apply not_elem_of_cons in Hp as [Hne Hp].
  case_decide; [|done]. rewrite IH by done. cbn.
  by rewrite lookup_insert_ne.
Qed.

(** The loop over pairs whose target tensors are pairwise different and
    are not online tensors of the pairs: every target tensor is either
    left as it was or holds the blend of the pair. *)
Lemma soft_update_pairs_spec tau (pairs : list (nat * nat)) s :
  NoDup pairs.*1 →
  (∀ tp lp, (tp, lp) ∈ pairs → lp ∉ pairs.*1) →
  let s' := (Agent.for_each pairs (λ '(tp, lp), Agent.soft_update_param tau tp lp) s).1 in
  ∀ tp lp, (tp, lp) ∈ pairs →
    Agent.param s' tp = Agent.param s tp
    ∨ (length (Agent.param s lp) = length (Agent.param s tp)
       ∧ Agent.param s' tp = polyak tau (Agent.param s lp) (Agent.param s tp)).
Proof.
  revert s. induction pairs as [|[tp0 lp0] pairs IH]; intros s Hnd Hdisj s' tp lp Hin.
  { by apply elem_of_nil in Hin. }
  cbn in Hnd. apply NoDup_cons in Hnd as [Htp0 Hnd].
  subst s'. rewrite for_each_cons, soft_update_param_eq.
  case_decide as Hlen; [|by left].
  set (s1 := Agent.set_data _ s).
  assert (∀ p, p ≠ tp0 → Agent.param s1 p = Agent.param s p) as Hother.
  { intros p Hp. unfold s1. rewrite param_set_data. unfold Agent.param.
    by rewrite lookup_insert_ne. }
  apply elem_of_cons in Hin as [[= -> ->]|Hin].
  - right. split; [done|]. unfold Agent.param at 1.
    rewrite soft_update_pairs_frame by done.
    unfold s1. cbn. by rewrite lookup_insert_eq.
  - assert (tp ≠ tp0) as Hne1.
    { intros ->. apply Htp0. apply list_elem_of_fmap. by exists (tp0, lp). }
    assert (lp ≠ tp0) as Hne2.
    { intros ->. eapply (Hdisj tp tp0); [by right|]. cbn. by left. }
    destruct (IH s1 Hnd) with (tp := tp) (lp := lp) as [Hu|[Hl Hb]]; [|done|..].
    + intros tp' lp' Hin' Hel. eapply (Hdisj tp' lp'); [by right|]. cbn. by right.
    + left. by rewrite Hu, Hother.
    + right. rewrite !Hother in Hl, Hb by done. done.
Qed.

(** With equal shapes the loop returns and every pair is blended. *)
Lemma soft_update_pairs_ok tau (pairs : list (nat * nat)) s :
  NoDup pairs.*1 →
  (∀ tp lp, (tp, lp) ∈ pairs → lp ∉ pairs.*1) →
  (∀ tp lp, (tp, lp) ∈ pairs → length (Agent.param s tp) = length (Agent.param s lp)) →
  ∃ s', Agent.for_each pairs (λ '(tp, lp), Agent.soft_update_param tau tp lp) s = (s', Ok tt)
        ∧ ∀ tp lp, (tp, lp) ∈ pairs →
            Agent.param s' tp = polyak tau (Agent.param s lp) (Agent.param s tp).
Proof.
  revert s. induction pairs as [|[tp0 lp0] pairs IH]; intros s Hnd Hdisj Hshape.
  { exists s. split; [done|]. intros tp lp Hin. by apply elem_of_nil in Hin. }
  cbn in Hnd. apply NoDup_cons in Hnd as [Htp0 Hnd].
  rewrite for_each_cons, soft_update_param_eq.
  rewrite decide_True by (symmetry; apply Hshape; by left).
  set (s1 := Agent.set_data _ s).
  assert (∀ p, p ≠ tp0 → Agent.param s1 p = Agent.param s p) as Hother.
  { intros p Hp. unfold s1. rewrite param_set_data. unfold Agent.param.
    by rewrite lookup_insert_ne. }
  assert (∀ tp lp, (tp, lp) ∈ pairs → tp ≠ tp0 ∧ lp ≠ tp0) as Hne.
  { intros tp lp Hin. split.
    - intros ->. apply Htp0. apply list_elem_of_fmap. by exists (tp0, lp).
    - intros ->. eapply (Hdisj tp tp0); [by right|]. cbn. by left. }
  destruct (IH s1 Hnd) as (s' & Hs' & Hall).
  { intros tp' lp' Hin' Hel. eapply (Hdisj tp' lp'); [by right|]. cbn. by right. }
  { intros tp lp Hin. destruct (Hne tp lp Hin) as [H1 H2].
    rewrite !Hother by done. apply Hshape. by right. }
  exists s'. split; [done|]. intros tp lp Hin.
  apply elem_of_cons in Hin as [[= -> ->]|Hin].
  - unfold Agent.param at 1.
    replace s' with (Agent.for_each pairs
      (λ '(tp, lp), Agent.soft_update_param tau tp lp) s1).1 by (by rewrite Hs').
    rewrite soft_update_pairs_frame by done.
    unfold s1. cbn. by rewrite lookup_insert_eq.
  - destruct (Hne tp lp Hin) as [H1 H2]. rewrite (Hall tp lp Hin).
    by rewrite !Hother.
Qed.

Lemma elem_of_zip_lookup (t l : list nat) tp lp :
  (tp, lp) ∈ zip t l ↔ ∃ i, t !! i = Some tp ∧ l !! i = Some lp.
Proof.
  rewrite list_elem_of_lookup. split.
  - intros [i Hi]. exists i.
    apply lookup_zip_with_Some in Hi as (x & y & [= -> ->] & Hx & Hy). done.
  - intros (i & Hx & Hy). exists i. apply lookup_zip_with_Some. by exists tp, lp.
Qed.

Lemma elem_of_zip_fst (t l : list nat) p : p ∈ (zip t l).*1 → p ∈ t.
Proof.
  intros Hp. apply list_elem_of_fmap in Hp as ([tp lp] & -> & Hin).
  by apply elem_of_zip_l in Hin.
Qed.

Lemma NoDup_zip_fst (t l : list nat) : NoDup t → NoDup (zip t l).*1.
Proof.
  revert l. induction t as [|x t IH]; intros [|y l] Hnd; cbn; try by constructor.
  apply NoDup_cons in Hnd as [Hx Hnd]. apply NoDup_cons. split; [|by apply IH].
  intros Hin. by apply elem_of_zip_fst in Hin.
Qed.

Lemma separate_pairs (t l : list nat) :
  (∀ p, p ∈ t → p ∉ l) → ∀ tp lp, (tp, lp) ∈ zip t l → lp ∉ (zip t l).*1.
Proof.
  intros Hdisj tp lp Hin Hel. apply elem_of_zip_fst in Hel.
  apply elem_of_zip_r in Hin. by eapply Hdisj.
Qed.

(** One soft update of networks that share no tensor and have equal
    shapes: it returns, every target tensor holds the blend with its
    online tensor, and the online tensors are as before. *)
Lemma soft_update_once self local_model target_model tau :
  NoDup target_model →
  (∀ p, p ∈ target_model → p ∉ local_model) →
  same_shapes self local_model target_model →
  ∃ self', Agent.soft_update local_model target_model tau self = (self', Ok tt)
    ∧ ∀ i tp lp, target_model !! i = Some tp → local_model !! i = Some lp →
        Agent.param self' tp = polyak tau (Agent.param self lp) (Agent.param self tp)
        ∧ Agent.param self' lp = Agent.param self lp.
Proof.
  intros Hnd Hdisj Hshape. unfold Agent.soft_update.
  destruct (soft_update_pairs_ok tau (zip target_model local_model) self)
    as (s' & Hs' & Hall).
  { by apply NoDup_zip_fst. }
  { by apply separate_pairs. }
  { exact Hshape. }
  exists s'. split; [done|]. intros i tp lp Htp Hlp. split.
  - apply Hall. apply elem_of_zip_lookup. eauto.
  - unfold Agent.param.
    replace s' with (Agent.for_each (zip target_model local_model)
      (λ '(tp, lp), Agent.soft_update_param tau tp lp) self).1 by (by rewrite Hs').
    rewrite soft_update_pairs_frame; [done|].
    intros Hel. apply elem_of_zip_fst in Hel. eapply Hdisj; [done|].
    by eapply list_elem_of_lookup_2.
Qed.

End SoftUpdateProperties.

(** ** Gradients never reach the target network *)

Section GradientProperties.
Context {State : Type} `{!Torch State}.
Implicit Types (s self : Agent.t State).

Lemma tensor_max1_graph (t : tensor (list (list Qc))) v i :
  tensor_max1 t = Ok (v, i) → graph v = graph t ∧ graph i = ∅.
Proof.
  unfold tensor_max1. intros Hm.
  apply result_bind_Ok in Hm as ([values indices] & _ & Hm).
  by injection Hm as <- <-.
Qed.

Lemma tensor_gather1_graph (t : tensor (list (list Qc))) index r :
  tensor_gather1 t index = Ok r → graph r = graph t.
Proof.
  unfold tensor_gather1. intros Hg.
  apply result_bind_Ok in Hg as (v & _ & Hg). by injection Hg as <-.
Qed.

Lemma tensor_binop_graph f (a b r : tensor (list Qc)) :
  tensor_binop f a b = Ok r → graph r = graph a ∪ graph b.
Proof.
  unfold tensor_binop. intros Hg.
  apply result_bind_Ok in Hg as (v & _ & Hg). by injection Hg as <-.
Qed.

Lemma mse_loss_graph (input target : tensor (list Qc)) l :
  mse_loss input target = Ok l → graph l = graph input ∪ graph target.
Proof.
  unfold mse_loss. intros Hl.
  apply result_bind_Ok in Hl as (d & Hd & Hl). injection Hl as <-. cbn.
  by apply tensor_binop_graph in Hd.
Qed.

(** Autograd reaches no parameter from the bootstrap values: the target
    network's output is detached, and so are the online network's
    action choices. *)
Lemma next_max_values_graph self (next_states : list State) nmv :
  Agent.next_max_values self next_states = Ok nmv → graph nmv = ∅.
Proof.
  unfold Agent.next_max_values. destruct (Agent.double_dqn self); intros Hn.
  - apply result_bind_Ok in Hn as ([v i] & _ & Hn).
    by apply tensor_gather1_graph in Hn.
  - apply result_bind_Ok in Hn as ([v i] & Hm & Hn). injection Hn as <-.
    by apply tensor_max1_graph in Hm as [-> _].
Qed.

(** Autograd reaches no parameter from the TD targets. *)
Lemma targets_graph self (experiences : Batch State) gamma tg :
  Agent.targets self experiences gamma = Ok tg → graph tg = ∅.
Proof.
  destruct experiences as [[[[states actions] rewards] next_states] dones].
  unfold Agent.targets, Agent.bootstrap. intros Ht.
  apply result_bind_Ok in Ht as (boot & Hb & Ht).
  apply result_bind_Ok in Hb as (nmv & Hn & Hb).
  apply next_max_values_graph in Hn.
  apply tensor_binop_graph in Hb, Ht. cbn in Hb, Ht.
  by rewrite Ht, Hb, Hn, !union_empty_r_L.
Qed.

(** From the current estimates autograd reaches the online network's
    parameters only. *)
Lemma selected_outputs_graph self (experiences : Batch State) so :
  Agent.selected_outputs self experiences = Ok so →
  graph so = list_to_set (Agent.qnetwork_local self).
Proof.
  destruct experiences as [[[[states actions] rewards] next_states] dones].
  unfold Agent.selected_outputs. intros Hs.
  apply tensor_gather1_graph in Hs. rewrite Hs. cbn. apply union_empty_r_L.
Qed.

Lemma foldr_alter_other (f : list Qc → list Qc) (m : gmap nat (list Qc)) l p :
  p ∉ l → foldr (alter f) m l !! p = m !! p.
Proof.
  induction l as [|x l IH]; [done|]. intros Hp.
  apply not_elem_of_cons in Hp as [Hne Hp]. cbn.
  rewrite lookup_alter_ne by done. by apply IH.
Qed.

Lemma zero_grad_other s p :
  p ∉ Agent.optimizer s →
  Agent.grad (Agent.zero_grad s).1 !! p = Agent.grad s !! p
  ∧ Agent.data (Agent.zero_grad s).1 = Agent.data s.
Proof. intros Hp. split; [|done]. cbn. by apply foldr_alter_other. Qed.

Lemma backward_other (loss : tensor Qc) s p :
  p ∉ graph loss →
  Agent.grad (Agent.backward loss s).1 !! p = Agent.grad s !! p
  ∧ Agent.data (Agent.backward loss s).1 = Agent.data s.
Proof.
  intros Hp. split; [|done]. cbn. revert Hp.
  apply (set_fold_ind_L (λ (g : gmap nat (list Qc)) (X : gset nat),
           p ∉ X → g !! p = Agent.grad s !! p)); [done|].
  intros x X g Hx IH Hp.
  apply not_elem_of_union in Hp as [Hne Hp].
  apply not_elem_of_singleton in Hne.
  destruct (g !! x); rewrite lookup_insert_ne by done; by apply IH.
Qed.

Lemma optimizer_step_other s p :
  p ∉ Agent.optimizer s →
  Agent.data (Agent.optimizer_step s).1 !! p = Agent.data s !! p
  ∧ Agent.grad (Agent.optimizer_step s).1 = Agent.grad s.
Proof.
  intros Hp. split; [|done]. cbn.
  induction (Agent.optimizer s) as [|x l IH]; [done|].
  apply not_elem_of_cons in Hp as [Hne Hp]. cbn.
  destruct (Agent.grad s !! x); [rewrite lookup_alter_ne by done|]; by apply IH.
Qed.

(** The gradient step, case by case. *)
Lemma gradient_step_eq (experiences : Batch State) gamma s :
  Agent.gradient_step experiences gamma s =
  match Agent.targets s experiences gamma with
  | Raise e => (s, Raise e)
  | Ok tg =>
      match Agent.selected_outputs s experiences with
      | Raise e => (s, Raise e)
      | Ok so =>
          match mse_loss so tg with
          | Raise e => ((Agent.zero_grad s).1, Raise e)
          | Ok loss =>
              ((Agent.optimizer_step
                  (Agent.backward loss (Agent.zero_grad s).1).1).1, Ok tt)
          end
      end
  end.
Proof.
  unfold Agent.gradient_step, Agent.bind, Agent.get, Agent.lift.
  destruct (Agent.targets s experiences gamma) as [tg|]; [|done].
  destruct (Agent.selected_outputs s experiences) as [so|]; [|done].
  cbn. by destruct (mse_loss so tg).
Qed.

(** The gradient step leaves alone every tensor that is neither held
    by the optimizer nor a parameter of the online network. *)
Lemma gradient_step_other (experiences : Batch State) gamma s p :
  p ∉ Agent.optimizer s → p ∉ Agent.qnetwork_local s →
  Agent.data (Agent.gradient_step experiences gamma s).1 !! p = Agent.data s !! p
  ∧ Agent.grad (Agent.gradient_step experiences gamma s).1 !! p = Agent.grad s !! p.
Proof.
  intros Hopt Hloc. rewrite gradient_step_eq.
  destruct (Agent.targets s experiences gamma) as [tg|] eqn:Htg; [|done].
  destruct (Agent.selected_outputs s experiences) as [so|] eqn:Hso; [|done].
  destruct (zero_grad_other s p Hopt) as [Hz1 Hz2].
  destruct (mse_loss so tg) as [loss|] eqn:Hloss; [|cbn [fst]; by rewrite Hz2].
  assert (p ∉ graph loss) as Hg.
  { apply mse_loss_graph in Hloss. apply targets_graph in Htg.
    apply selected_outputs_graph in Hso.
    by rewrite Hloss, Htg, Hso, union_empty_r_L, elem_of_list_to_set. }
  destruct (backward_other loss (Agent.zero_grad s).1 p Hg) as [Hb1 Hb2].
  destruct (optimizer_step_other (Agent.backward loss (Agent.zero_grad s).1).1 p)
    as [Ho1 Ho2]; [done|].
  cbn [fst]. by rewrite Ho1, Ho2, Hb1, Hb2, Hz1, Hz2.
Qed.

Lemma soft_update_grad local_model target_model tau s :
  Agent.grad (Agent.soft_update local_model target_model tau s).1 = Agent.grad s.
Proof.
  unfold Agent.soft_update. generalize (zip target_model local_model) as pairs.
  intros pairs. revert s. induction pairs as [|[tp lp] pairs IH]; intros s; [done|].
  rewrite for_each_cons, soft_update_param_eq. case_decide; [|done].
  by rewrite IH.
Qed.

(** [learn], case by case. *)
Lemma learn_eq (experiences : Batch State) gamma s :
  Agent.learn experiences gamma s =
  match Agent.gradient_step experiences gamma (Agent.count_learn s) with
  | (s1, Ok _) =>
      Agent.soft_update (Agent.qnetwork_local s1) (Agent.qnetwork_target s1) TAU s1
  | (s1, Raise e) => (s1, Raise e)
  end.
Proof.
  unfold Agent.learn, Agent.bind, Agent.modify, Agent.get. cbn.
  by destruct (Agent.gradient_step experiences gamma (Agent.count_learn s))
    as [s1 [[]|e]].
Qed.

(** [step], case by case. *)
Lemma step_eq st a r st' d picks s :
  Agent.step st a r st' d picks s =
  let s1 := Agent.set_t_step ((Agent.t_step s + 1) `mod` UPDATE_EVERY)%Z
              (Agent.set_memory (ReplayBuffer.add (Agent.memory s) st a r st' d) s) in
  if decide (Agent.t_step s1 = 0%Z) then
    if decide (BATCH_SIZE < ReplayBuffer.len (Agent.memory s1)) then
      match ReplayBuffer.sample (Agent.memory s1) picks with
      | Ok experiences => Agent.learn experiences GAMMA s1
      | Raise e => (s1, Raise e)
      end
    else (s1, Ok tt)
  else (s1, Ok tt).
Proof.
  unfold Agent.step, Agent.bind, Agent.modify, Agent.get, Agent.lift, Agent.ret. cbn.
  repeat case_decide; try done; by destruct (ReplayBuffer.sample _ _).
Qed.

Lemma param_data_eq s s' p :
  Agent.data s' !! p = Agent.data s !! p → Agent.param s' p = Agent.param s p.
Proof. unfold Agent.param. by intros ->. Qed.

(** What [learn] does to a tensor of the target network: its gradient
    is untouched, and its value is either untouched or the blend with
    the paired online tensor. *)
Lemma learn_target (experiences : Batch State) gamma s tp :
  separate_networks s → tp ∈ Agent.qnetwork_target s →
  let s2 := (Agent.learn experiences gamma s).1 in
  Agent.grad s2 !! tp = Agent.grad s !! tp
  ∧ (Agent.param s2 tp = Agent.param s tp
     ∨ ∃ i lp, Agent.qnetwork_target s !! i = Some tp
               ∧ Agent.qnetwork_local s !! i = Some lp
               ∧ Agent.param s2 tp = polyak TAU (Agent.param s2 lp) (Agent.param s tp)).
Proof.
  intros (Hopt & Hnd & Hdisj) Htp s2. subst s2. rewrite learn_eq.
  set (s0 := Agent.count_learn s).
  destruct (gradient_step_other experiences gamma s0 tp) as [Hd Hg].
  { change (Agent.optimizer s0) with (Agent.optimizer s). rewrite Hopt. by apply Hdisj. }
  { by apply Hdisj. }
  destruct (gradient_step_params_only experiences gamma s0) as [(Hl & Ht & _) _].
  change (Agent.data s0) with (Agent.data s) in Hd.
  change (Agent.grad s0) with (Agent.grad s) in Hg.
  change (Agent.qnetwork_local s0) with (Agent.qnetwork_local s) in Hl.
  change (Agent.qnetwork_target s0) with (Agent.qnetwork_target s) in Ht.
  destruct (Agent.gradient_step experiences gamma s0) as [s1 [[]|e]]; cbn [fst] in *.
  2:{ split; [done|]. left. by apply param_data_eq. }
  rewrite Hl, Ht, soft_update_grad. split; [done|].
  set (pairs := zip (Agent.qnetwork_target s) (Agent.qnetwork_local s)).
  unfold Agent.soft_update. fold pairs.
  destruct (decide (tp ∈ pairs.*1)) as [Hin|Hnin].
  - apply list_elem_of_fmap in Hin as ([tp' lp] & -> & Hin). cbn.
    pose proof Hin as Hi. apply elem_of_zip_lookup in Hi as (i & Hti & Hli).
    assert (lp ∉ pairs.*1) as Hlp by (by eapply separate_pairs).
    destruct (soft_update_pairs_spec TAU pairs s1) with (tp := tp') (lp := lp)
      as [Hu|[_ Hb]]; [by apply NoDup_zip_fst|by apply separate_pairs|done|..].
    + left. rewrite Hu. by apply param_data_eq.
    + right. exists i, lp. split_and!; [done..|]. rewrite Hb. f_equal.
      * symmetry. apply param_data_eq. by apply soft_update_pairs_frame.
      * by apply param_data_eq.
  - left. etrans; [|by apply param_data_eq].
    apply param_data_eq. by apply soft_update_pairs_frame.
Qed.

(** The same for a call of [step]. *)
Lemma step_target s call tp :
  separate_networks s → tp ∈ Agent.qnetwork_target s →
  let s' := step_call s call in
  Agent.grad s' !! tp = Agent.grad s !! tp
  ∧ (Agent.param s' tp = Agent.param s tp
     ∨ ∃ i lp, Agent.qnetwork_target s !! i = Some tp
               ∧ Agent.qnetwork_local s !! i = Some lp
               ∧ Agent.param s' tp = polyak TAU (Agent.param s' lp) (Agent.param s tp)).
Proof.
  intros Hsep Htp. destruct call as [[[[[st a] r] st'] d] picks].
  unfold step_call. rewrite step_eq. cbn zeta.
  set (s1 := Agent.set_t_step _ _).
  repeat case_decide; try (split; [done|by left]).
  destruct (ReplayBuffer.sample _ _) as [experiences|e]; [|split; [done|by left]].
  apply (learn_target experiences GAMMA s1 tp); done.
Qed.

Lemma separate_networks_same s s' :
  same_networks s s' → separate_networks s → separate_networks s'.
Proof.
  intros (Hl & Ht & Ho & _) (Hopt & Hnd & Hdisj). unfold separate_networks.
  rewrite Hl, Ht, Ho. done.
Qed.

Lemma init_separate ss acts seed dd du (lps tps : list (list Qc)) adam0 :
  separate_networks (Agent.init (State := State) ss acts seed dd du lps tps adam0).
Proof.
  split_and!; cbn.
  - done.
  - apply NoDup_seq.
  - intros p Hp Hp'. apply elem_of_seq in Hp, Hp'. lia.
Qed.

(** Every agent that [__init__] and calls of [step] produce keeps the
    two networks separate, and no tensor of its target network has a
    gradient. *)
Lemma run_invariant ss acts seed dd du (lps tps : list (list Qc)) adam0 calls :
  let self := run (Agent.init (State := State) ss acts seed dd du lps tps adam0) calls in
  separate_networks self
  ∧ ∀ p, p ∈ Agent.qnetwork_target self → Agent.grad self !! p = None.
Proof.
  induction calls as [|call calls IH] using rev_ind.
  - split; [apply init_separate|]. intros p _. apply lookup_empty.
  - cbn zeta in *. unfold run in *. rewrite foldl_snoc.
    set (s := foldl step_call _ calls) in *. destruct IH as [Hsep Hgrad].
    assert (same_networks s (step_call s call)) as Hsame.
    { destruct call as [[[[[st a] r] st'] d] picks]. apply step_same_networks. }
    split; [by eapply separate_networks_same|].
    intros p Hp. destruct Hsame as (_ & Ht & _). rewrite Ht in Hp.
    destruct (step_target s call p Hsep Hp) as [-> _]. by apply Hgrad.
Qed.

(** C7.  In every agent that [__init__] and calls of [step] produce:
    the optimizer holds exactly the online network's parameters, none of
    which belongs to the target network; autograd reaches no parameter
    from the TD targets, and no target tensor ever has a gradient; the
    gradient step of [learn] leaves the target tensors as they are; and
    a call of [step] changes a target tensor only into the Polyak blend
    with its online tensor. *)
Theorem target_network_only_soft_updated ss acts seed dd du
    (lps tps : list (list Qc)) adam0 calls :
  let self := run (Agent.init (State := State) ss acts seed dd du lps tps adam0) calls in
  Agent.optimizer self = Agent.qnetwork_local self
  ∧ (∀ p, p ∈ Agent.qnetwork_target self → p ∉ Agent.optimizer self)
  ∧ (∀ experiences gamma tg,
       Agent.targets self experiences gamma = Ok tg → graph tg = ∅)
  ∧ (∀ p, p ∈ Agent.qnetwork_target self → Agent.grad self !! p = None)
  ∧ (∀ experiences gamma p, p ∈ Agent.qnetwork_target self →
       Agent.data (Agent.gradient_step experiences gamma self).1 !! p
       = Agent.data self !! p)
  ∧ (∀ call tp, tp ∈ Agent.qnetwork_target self →
       Agent.param (step_call self call) tp = Agent.param self tp
       ∨ ∃ i lp, Agent.qnetwork_target self !! i = Some tp
                 ∧ Agent.qnetwork_local self !! i = Some lp
                 ∧ Agent.param (step_call self call) tp
                   = polyak TAU (Agent.param (step_call self call) lp)
                                (Agent.param self tp)).
Proof.
  intros self.
  destruct (run_invariant ss acts seed dd du lps tps adam0 calls) as [Hsep Hgrad].
  fold self in Hsep, Hgrad. pose proof Hsep as (Hopt & Hnd & Hdisj).
  split_and!.
  - done.
  - intros p Hp. rewrite Hopt. by apply Hdisj.
  - intros experiences gamma tg. apply targets_graph.
  - done.
  - intros experiences gamma p Hp.
    apply gradient_step_other; [rewrite Hopt|]; by apply Hdisj.
  - intros call tp Htp. by apply step_target.
Qed.

End GradientProperties.

(** ** The scheduling of [learn] by [step] *)

Section ScheduleProperties.
Context {State : Type} `{!Torch State}.
Implicit Types (s self : Agent.t State).

(** [learn] leaves the replay memory and the step counter as they are,
    and is counted once. *)
Lemma learn_schedule (experiences : Batch State) gamma s :
  Agent.memory (Agent.learn experiences gamma s).1 = Agent.memory s
  ∧ Agent.t_step (Agent.learn experiences gamma s).1 = Agent.t_step s
  ∧ Agent.learn_calls (Agent.learn experiences gamma s).1 = S (Agent.learn_calls s).
Proof.
  rewrite learn_eq.
  destruct (gradient_step_params_only experiences gamma (Agent.count_learn s))
    as [_ (Hm & Ht & Hc)].
  destruct (Agent.gradient_step experiences gamma (Agent.count_learn s))
    as [s1 [[]|e]]; cbn [fst] in *; [|done].
  destruct (soft_update_params_only (Agent.qnetwork_local s1)
              (Agent.qnetwork_target s1) TAU s1) as [_ (Hm' & Ht' & Hc')].
  rewrite Hm', Ht', Hc'. done.
Qed.

(** One call of [step]: the transition is stored, the counter advances
    modulo [UPDATE_EVERY], and [learn] is entered at most once, only
    when the counter is back at zero and the memory holds more than
    [BATCH_SIZE] experiences, and then whenever [sample] returns. *)
Lemma step_call_schedule s tr picks :
  let s' := step_call s (tr, picks) in
  Agent.memory s' = add_transition (Agent.memory s) tr
  ∧ Agent.t_step s' = ((Agent.t_step s + 1) `mod` UPDATE_EVERY)%Z
  ∧ (Agent.learn_calls s' = Agent.learn_calls s
     ∨ (Agent.learn_calls s' = S (Agent.learn_calls s)
        ∧ Agent.t_step s' = 0%Z
        ∧ BATCH_SIZE < ReplayBuffer.len (Agent.memory s')))
  ∧ (∀ experiences,
       Agent.t_step s' = 0%Z →
       BATCH_SIZE < ReplayBuffer.len (Agent.memory s') →
       ReplayBuffer.sample (Agent.memory s') picks = Ok experiences →
       Agent.learn_calls s' = S (Agent.learn_calls s)).
Proof.
  destruct tr as [[[[st a] r] st'] d]. cbn zeta. unfold step_call.
  rewrite step_eq. cbn zeta. set (s1 := Agent.set_t_step _ _).
  assert (Agent.memory s1 = ReplayBuffer.add (Agent.memory s) st a r st' d) as Hm1 by done.
  assert (Agent.t_step s1 = ((Agent.t_step s + 1) `mod` UPDATE_EVERY)%Z) as Ht1 by done.
  assert (Agent.learn_calls s1 = Agent.learn_calls s) as Hc1 by done.
  case_decide as Hwrap; [case_decide as Hbig|].
  - destruct (ReplayBuffer.sample (Agent.memory s1) picks) as [experiences|e] eqn:Hs.
    + destruct (learn_schedule experiences GAMMA s1) as (Hm & Ht & Hc).
      rewrite Hm, Ht, Hc, Hc1. split_and!; [done..| |done].
      right. by rewrite Hm1 in Hbig.
    + cbn [fst]. split_and!; [done..|by left|]. intros experiences _ _ Hs'.
      rewrite Hm1 in Hs. congruence.
  - cbn [fst]. split_and!; [done..|by left|]. intros experiences _ Hbig' _.
    by destruct Hbig.
  - cbn [fst]. split_and!; [done..|by left|]. intros experiences Hw _ _. congruence.
Qed.

(** The replay memory of an agent after a run is that of a new buffer
    after the same transitions. *)
Lemma run_memory ss acts seed dd du (lps tps : list (list Qc)) adam0 calls :
  Agent.memory (run (Agent.init (State := State) ss acts seed dd du lps tps adam0) calls)
  = add_all (ReplayBuffer.init acts BUFFER_SIZE BATCH_SIZE seed) calls.*1.
Proof.
  induction calls as [|[tr picks] calls IH] using rev_ind; [done|].
  unfold run. rewrite foldl_snoc, fmap_app. cbn [fmap list_fmap fst].
  rewrite add_all_snoc.
  destruct (step_call_schedule (foldl step_call
    (Agent.init ss acts seed dd du lps tps adam0) calls) tr picks) as (-> & _).
  by rewrite <- IH.
Qed.

(** Among [UPDATE_EVERY] consecutive calls of [step] at most one enters
    [learn]. *)
Lemma window_learns_once s (window : list (Transition State * list nat)) :
  length window = Z.to_nat UPDATE_EVERY →
  Agent.learn_calls (run s window) ≤ Agent.learn_calls s + 1.
Proof.
  intros Hlen.
  destruct window as [|[tr1 p1] [|[tr2 p2] [|[tr3 p3] [|[tr4 p4] [|? ?]]]]];
    try discriminate Hlen.
  unfold run. cbn [foldl].
  set (s1 := step_call s (tr1, p1)).
  set (s2 := step_call s1 (tr2, p2)).
  set (s3 := step_call s2 (tr3, p3)).
  set (s4 := step_call s3 (tr4, p4)).
  destruct (step_call_schedule s tr1 p1) as (_ & Ht1 & Hc1 & _).
  destruct (step_call_schedule s1 tr2 p2) as (_ & Ht2 & Hc2 & _).
  destruct (step_call_schedule s2 tr3 p3) as (_ & Ht3 & Hc3 & _).
  destruct (step_call_schedule s3 tr4 p4) as (_ & Ht4 & Hc4 & _).
  cbn zeta in *. fold s1 in Ht1, Hc1, Ht2, Hc2. fold s2 in Ht2, Hc2, Ht3, Hc3.
  fold s3 in Ht3, Hc3, Ht4, Hc4. fold s4 in Ht4, Hc4.
  unfold UPDATE_EVERY in *. Z.to_euclidean_division_equations. lia.
Qed.

(** C5.  Each call of [step] stores the transition and advances the
    counter modulo [UPDATE_EVERY]; it enters [learn] if and only if the
    counter is back at zero and the memory holds more than [BATCH_SIZE]
    experiences (the generator drawing a sample as [random.sample]
    does).  Hence [learn] is never entered while the memory holds at
    most [BATCH_SIZE] experiences, and at most once in [UPDATE_EVERY]
    consecutive calls. *)
Theorem step_schedules_learn ss acts seed dd du (lps tps : list (list Qc)) adam0
    calls tr picks :
  let self := run (Agent.init (State := State) ss acts seed dd du lps tps adam0) calls in
  let self' := step_call self (tr, picks) in
  Agent.memory self' = add_transition (Agent.memory self) tr
  ∧ Agent.t_step self' = ((Agent.t_step self + 1) `mod` UPDATE_EVERY)%Z
  ∧ (Agent.learn_calls self' = Agent.learn_calls self
     ∨ Agent.learn_calls self' = S (Agent.learn_calls self))
  ∧ (sample_picks (ReplayBuffer.len (Agent.memory self')) BATCH_SIZE picks →
       Agent.learn_calls self' = S (Agent.learn_calls self)
       ↔ Agent.t_step self' = 0%Z
         ∧ BATCH_SIZE < ReplayBuffer.len (Agent.memory self'))
  ∧ (ReplayBuffer.len (Agent.memory self') ≤ BATCH_SIZE →
       Agent.learn_calls self' = Agent.learn_calls self)
  ∧ (∀ window, length window = Z.to_nat UPDATE_EVERY →
       Agent.learn_calls (run self window) ≤ Agent.learn_calls self + 1).
Proof.
  intros self self'.
  destruct (step_call_schedule self tr picks) as (Hm & Ht & Hc & Hfire).
  fold self' in Hm, Ht, Hc, Hfire.
  split_and!; [done|done| | | |].
  - destruct Hc as [Hc|(Hc & _)]; eauto.
  - intros Hpicks. split.
    + intros Hinc. destruct Hc as [Hc|(_ & Hw & Hb)]; [lia|done].
    + intros [Hw Hb].
      assert (Agent.memory self'
              = add_all (ReplayBuffer.init acts BUFFER_SIZE BATCH_SIZE seed)
                        (calls.*1 ++ [tr])) as Hmem.
      { rewrite Hm. unfold self. by rewrite run_memory, add_all_snoc. }
      rewrite Hmem in Hpicks, Hb.
      destruct (sample_filled acts BUFFER_SIZE BATCH_SIZE seed (calls.*1 ++ [tr]) picks)
        as (es & _ & Hs & _); [unfold BATCH_SIZE; lia|lia|done|].
      rewrite <- Hmem in Hs, Hb. by eapply Hfire.
  - intros Hsmall. destruct Hc as [Hc|(_ & _ & Hb)]; [done|lia].
  - intros window. apply window_learns_once.
Qed.

End ScheduleProperties.

(** ** Action selection *)

Section ActProperties.
Context {State : Type} `{!Torch State}.
Implicit Types (s self : Agent.t State).

Lemma random_choice_arange n r :
  r < n → random_choice (np_arange n) r = Ok (Z.of_nat r).
Proof.
  intros Hr. unfold random_choice, np_arange.
  by rewrite list_lookup_fmap, lookup_seq_lt.
Qed.

(** When the draw exceeds [eps], [act] returns the first argmax of the
    online estimator's action values. *)
Lemma act_greedy self st eps u r :
  (eps < u)%Qc → q_online self st ≠ [] →
  ∃ a m, first_max_at (q_online self st) a m
         ∧ Agent.act self st eps u r = Ok (Z.of_nat a).
Proof.
  intros Hlt Hne. destruct (np_argmax_first_max _ Hne) as (a & m & Ha & Hfm).
  exists a, m. split; [done|]. unfold Agent.act.
  rewrite decide_True by done. fold (q_online self st). by rewrite Ha.
Qed.

(** When the draw does not exceed [eps], [act] returns the action that
    [random.choice] draws among all the actions. *)
Lemma act_explore self st eps u r :
  ¬ (eps < u)%Qc → r < Agent.action_size self →
  Agent.act self st eps u r = Ok (Z.of_nat r).
Proof.
  intros Hnlt Hr. unfold Agent.act. rewrite decide_False by done.
  by apply random_choice_arange.
Qed.

(** C8, at the failing input.  With [eps = 0], [act] returns the first
    argmax of the online action values whenever [random.random()] is
    positive; but when it returns 0.0 the test [random.random() > eps]
    fails and [act] returns the action drawn by [random.choice]. *)
Theorem act_eps_zero self st u r :
  q_online self st ≠ [] → r < Agent.action_size self →
  ((0 < u)%Qc →
     ∃ a m, first_max_at (q_online self st) a m
            ∧ Agent.act self st 0 u r = Ok (Z.of_nat a))
  ∧ (u = 0%Qc → Agent.act self st 0 u r = Ok (Z.of_nat r)).
Proof.
  intros Hne Hr. split.
  - intros Hu. by apply act_greedy.
  - intros ->. apply act_explore; [|done]. apply Qcle_not_lt, Qcle_refl.
Qed.

End ActProperties.



(** ** Batches *)

Section BatchProperties.
Context {State : Type}.

Lemma not_None_stored {A : Type} (m : list (option A)) (picks : list nat) (x : A) :
  x ∈ not_None (omap (λ i, m !! i) picks) → Some x ∈ m.
Proof.
  unfold not_None. intros Hx.
  apply list_elem_of_omap in Hx as (o & Ho & Hid). cbn in Hid. subst o.
  apply list_elem_of_omap in Ho as (i & _ & Hi).
  by eapply list_elem_of_lookup_2.
Qed.

Lemma omap_length_le {A B : Type} (f : A → option B) (l : list A) :
  length (omap f l) ≤ length l.
Proof.
  induction l as [|x l IH]; [done|]. cbn. destruct (f x); cbn; lia.
Qed.

(** X1.  Whatever positions the generator draws and whatever the
    memory holds, a batch that [sample] returns is not empty, its five
    arrays have one row per drawn experience, at most one per drawn
    position, and row [i] of every array comes from the same
    experience, which is stored in the memory. *)
Theorem sample_batch_rows (buf : ReplayBuffer.t State) picks
    states actions rewards next_states dones :
  ReplayBuffer.sample buf picks = Ok (states, actions, rewards, next_states, dones) →
  ∃ es : list (Experience State),
    0 < length es ∧ length es ≤ length picks
    ∧ length states = length es ∧ length actions = length es
    ∧ length rewards = length es ∧ length next_states = length es
    ∧ length dones = length es
    ∧ ∀ i e, es !! i = Some e →
        Some e ∈ items (ReplayBuffer.memory buf)
        ∧ states !! i = Some (state e)
        ∧ actions !! i = Some (action e)
        ∧ rewards !! i = Some (reward e)
        ∧ next_states !! i = Some (next_state e)
        ∧ dones !! i = Some (to_float (astype_uint8 (done e))).
Proof.
  intros Hs.
  destruct (sample_Ok_collate buf picks _ Hs) as (experiences & Hdraw & Hb).
  unfold collate in Hb. injection Hb as -> -> -> -> ->.
  set (es := not_None experiences) in *. exists es.
  unfold random_sample in Hdraw. case_decide; [|discriminate].
  injection Hdraw as <-.
  assert (0 < length es) as Hpos.
  { unfold ReplayBuffer.sample, random_sample in Hs.
    rewrite decide_True in Hs by done. cbn [result_bind] in Hs. fold es in Hs.
    destruct es; [discriminate|cbn; lia]. }
  split_and!; [done| |by rewrite length_fmap..|].
  - etrans; [apply omap_length_le|]. apply omap_length_le.
  - intros i e He. rewrite !list_lookup_fmap, He. split_and!; [|done..].
    apply (not_None_stored _ picks). by eapply list_elem_of_lookup_2.
Qed.

End BatchProperties.


(** ** Runs of [step] *)

Section RunProperties.
Context {State : Type} `{!Torch State}.
Implicit Types (s self : Agent.t State).

Lemma BUFFER_SIZE_above_batch : BATCH_SIZE < BUFFER_SIZE.
Proof. unfold BATCH_SIZE, BUFFER_SIZE. lia. Qed.

Lemma run_snoc s calls call : run s (calls ++ [call]) = step_call (run s calls) call.
Proof. unfold run. by rewrite foldl_snoc. Qed.

Lemma next_counter n : ((Z.of_nat n `mod` 4 + 1) `mod` 4 = Z.of_nat (S n) `mod` 4)%Z.
Proof. rewrite Nat2Z.inj_succ. Z.to_euclidean_division_equations. lia. Qed.

(** The step counter after a run counts the calls modulo
    [UPDATE_EVERY]. *)
Lemma run_t_step ss acts seed dd du (lps tps : list (list Qc)) adam0 calls :
  Agent.t_step (run (Agent.init (State := State) ss acts seed dd du lps tps adam0) calls)
  = (Z.of_nat (length calls) `mod` UPDATE_EVERY)%Z.
Proof.
  induction calls as [|[tr picks] calls IH] using rev_ind; [done|].
  rewrite run_snoc.
  destruct (step_call_schedule (run (Agent.init ss acts seed dd du lps tps adam0) calls)
              tr picks) as (_ & -> & _).
  rewrite IH, length_app. cbn [length]. unfold UPDATE_EVERY.
  rewrite next_counter. do 2 f_equal. lia.
Qed.

Lemma run_len ss acts seed dd du (lps tps : list (list Qc)) adam0 calls :
  ReplayBuffer.len (Agent.memory
    (run (Agent.init (State := State) ss acts seed dd du lps tps adam0) calls))
  = length calls `min` BUFFER_SIZE.
Proof. by rewrite run_memory, add_all_len, length_fmap. Qed.

(** X2.  After [n] calls of [step] on a new agent the counter is
    [n mod UPDATE_EVERY] and the replay memory holds the transitions of
    the last [BUFFER_SIZE] calls, oldest first, whatever [learn] did in
    between; its batch size is [BATCH_SIZE]. *)
Theorem run_counter_and_memory ss acts seed dd du (lps tps : list (list Qc)) adam0 calls :
  let self := run (Agent.init (State := State) ss acts seed dd du lps tps adam0) calls in
  Agent.t_step self = (Z.of_nat (length calls) `mod` UPDATE_EVERY)%Z
  ∧ items (ReplayBuffer.memory (Agent.memory self))
    = (Some ∘ experience_of) <$> drop (length calls - BUFFER_SIZE) calls.*1
  ∧ ReplayBuffer.len (Agent.memory self) = length calls `min` BUFFER_SIZE
  ∧ ReplayBuffer.batch_size (Agent.memory self) = BATCH_SIZE.
Proof.
  intros self. unfold self. split_and!.
  - apply run_t_step.
  - by rewrite run_memory, add_all_items, length_fmap.
  - apply run_len.
  - rewrite run_memory.
    by destruct (add_all_fields (ReplayBuffer.init acts BUFFER_SIZE BATCH_SIZE seed)
                   calls.*1) as (_ & -> & _).
Qed.

(** Inside [step] the memory is sampled only when it holds more than
    [BATCH_SIZE] experiences, and then [sample] returns. *)
Lemma step_sample_returns ss acts seed dd du (lps tps : list (list Qc)) adam0
    calls tr picks :
  let self' := step_call
    (run (Agent.init (State := State) ss acts seed dd du lps tps adam0) calls)
    (tr, picks) in
  BATCH_SIZE < ReplayBuffer.len (Agent.memory self') →
  sample_picks (ReplayBuffer.len (Agent.memory self')) BATCH_SIZE picks →
  ∃ es, ReplayBuffer.sample (Agent.memory self') picks = Ok (collate es)
        ∧ length es = BATCH_SIZE.
Proof.
  intros self' Hbig Hpicks.
  assert (Agent.memory self'
          = add_all (ReplayBuffer.init acts BUFFER_SIZE BATCH_SIZE seed)
                    (calls.*1 ++ [tr])) as Hmem.
  { unfold self'.
    destruct (step_call_schedule
                (run (Agent.init ss acts seed dd du lps tps adam0) calls) tr picks)
      as (-> & _).
    by rewrite run_memory, add_all_snoc. }
  rewrite Hmem in *.
  destruct (sample_filled acts BUFFER_SIZE BATCH_SIZE seed (calls.*1 ++ [tr]) picks)
    as (es & _ & Hs & Hlen & _); [unfold BATCH_SIZE; lia|lia|done|].
  by exists es.
Qed.

(** X3.  The guard of [step] makes [sample] safe: when a call of [step]
    on an agent produced by [__init__] and calls of [step] finds more
    than [BATCH_SIZE] experiences in the memory, [sample] (the generator
    drawing as [random.sample] does) returns five arrays of [BATCH_SIZE]
    rows and does not raise. *)
Theorem step_guard_makes_sample_safe ss acts seed dd du (lps tps : list (list Qc)) adam0
    calls tr picks :
  let self' := step_call
    (run (Agent.init (State := State) ss acts seed dd du lps tps adam0) calls)
    (tr, picks) in
  BATCH_SIZE < ReplayBuffer.len (Agent.memory self') →
  sample_picks (ReplayBuffer.len (Agent.memory self')) BATCH_SIZE picks →
  ∃ states actions rewards next_states dones,
    ReplayBuffer.sample (Agent.memory self') picks
      = Ok (states, actions, rewards, next_states, dones)
    ∧ length states = BATCH_SIZE ∧ length actions = BATCH_SIZE
    ∧ length rewards = BATCH_SIZE ∧ length next_states = BATCH_SIZE
    ∧ length dones = BATCH_SIZE.
Proof.
  intros self' Hbig Hpicks.
  destruct (step_sample_returns ss acts seed dd du lps tps adam0 calls tr picks
              Hbig Hpicks) as (es & Hs & Hlen).
  eexists _, _, _, _, _. split; [exact Hs|]. by rewrite !length_fmap.
Qed.

(** A call of [step] that is not due to learn returns and changes
    nothing but the memory and the counter. *)
Lemma step_idle s st a r st' d picks :
  ((Agent.t_step s + 1) `mod` UPDATE_EVERY ≠ 0)%Z
  ∨ ReplayBuffer.len (ReplayBuffer.add (Agent.memory s) st a r st' d) ≤ BATCH_SIZE →
  (Agent.step st a r st' d picks s).2 = Ok tt
  ∧ Agent.data (Agent.step st a r st' d picks s).1 = Agent.data s
  ∧ Agent.grad (Agent.step st a r st' d picks s).1 = Agent.grad s
  ∧ Agent.optimizer_state (Agent.step st a r st' d picks s).1 = Agent.optimizer_state s
  ∧ Agent.learn_calls (Agent.step st a r st' d picks s).1 = Agent.learn_calls s.
Proof.
  intros Hidle. rewrite step_eq. cbn zeta.
  set (s1 := Agent.set_t_step _ _).
  case_decide as Hw; [case_decide as Hb|]; try done.
  destruct Hidle as [Hidle|Hidle]; [by destruct Hidle|].
  change (Agent.memory s1) with (ReplayBuffer.add (Agent.memory s) st a r st' d) in Hb.
  lia.
Qed.

(** X4.  The first 67 calls of [step] on a new agent all return and
    leave the parameter tensors of both networks, their gradients and
    the state of the optimizer as [__init__] made them: [learn] is not
    entered before the 68th call. *)
Theorem warm_up_leaves_networks ss acts seed dd du (lps tps : list (list Qc)) adam0 calls :
  length calls < 68 →
  let self0 := Agent.init (State := State) ss acts seed dd du lps tps adam0 in
  Agent.data (run self0 calls) = Agent.data self0
  ∧ Agent.grad (run self0 calls) = ∅
  ∧ Agent.optimizer_state (run self0 calls) = adam0
  ∧ Agent.learn_calls (run self0 calls) = 0
  ∧ ∀ st a r st' d picks,
      length calls < 67 →
      (Agent.step st a r st' d picks (run self0 calls)).2 = Ok tt.
Proof.
  intros Hn self0.
  assert (∀ st a r st' d (calls' : list (Transition State * list nat)),
            length calls' < 67 →
            ((Agent.t_step (run self0 calls') + 1) `mod` UPDATE_EVERY ≠ 0)%Z
            ∨ ReplayBuffer.len (ReplayBuffer.add (Agent.memory (run self0 calls'))
                                  st a r st' d) ≤ BATCH_SIZE) as Hidle.
  { intros st a r st' d calls' Hlen. unfold self0.
    rewrite run_t_step.
    change (ReplayBuffer.add (Agent.memory (run ?s calls')) st a r st' d)
      with (add_transition (Agent.memory (run s calls')) (st, a, r, st', d)).
    rewrite run_memory, <- add_all_snoc. unfold ReplayBuffer.len.
    rewrite add_all_items, length_fmap, length_drop, length_app, length_fmap.
    cbn [length]. unfold UPDATE_EVERY, BATCH_SIZE.
    Z.to_euclidean_division_equations. lia. }
  split_and!; [| | | |by intros; apply step_idle, Hidle].
  all: induction calls as [|[[[[[st a] r] st'] d] picks] calls IH] using rev_ind;
    [done|].
  all: rewrite length_app in Hn; cbn [length] in Hn.
  all: rewrite run_snoc; unfold step_call.
  all: destruct (step_idle (run self0 calls) st a r st' d picks) as (_ & Hd & Hg & Ho & Hc);
    [apply Hidle; lia|].
  - rewrite Hd. apply IH. lia.
  - rewrite Hg. apply IH. lia.
  - rewrite Ho. apply IH. lia.
  - rewrite Hc. apply IH. lia.
Qed.

Lemma multiple_of_4 n : (Z.of_nat n `mod` 4 = 0)%Z ↔ n `mod` 4 = 0.
Proof. change 4%Z with (Z.of_nat 4). rewrite <- Nat2Z.inj_mod. lia. Qed.

Lemma count_fire n : S n `mod` 4 = 0 → 64 < S n → S n / 4 - 16 = S (n / 4 - 16).
Proof.
  intros H1 H2.
  pose proof (Nat.div_mod_eq n 4). pose proof (Nat.div_mod_eq (S n) 4).
  pose proof (Nat.mod_upper_bound n 4). lia.
Qed.

Lemma count_idle n : ¬ (S n `mod` 4 = 0 ∧ 64 < S n) → S n / 4 - 16 = n / 4 - 16.
Proof.
  intros H1.
  pose proof (Nat.div_mod_eq n 4). pose proof (Nat.div_mod_eq (S n) 4).
  pose proof (Nat.mod_upper_bound n 4). pose proof (Nat.mod_upper_bound (S n) 4). lia.
Qed.

(** X5.  On a new agent the [n]-th call of [step] enters [learn] exactly
    when [n] is a multiple of [UPDATE_EVERY] above [BATCH_SIZE] (the
    generator drawing as [random.sample] does at those calls): after [n]
    calls [learn] has been entered [n / 4 - 16] times, first at the
    68th call. *)
Theorem learn_calls_count ss acts seed dd du (lps tps : list (list Qc)) adam0 calls :
  (∀ i c, calls !! i = Some c →
     BATCH_SIZE < S i → S i `mod` Z.to_nat UPDATE_EVERY = 0 →
     sample_picks (S i `min` BUFFER_SIZE) BATCH_SIZE c.2) →
  Agent.learn_calls (run (Agent.init (State := State) ss acts seed dd du lps tps adam0) calls)
  = length calls / Z.to_nat UPDATE_EVERY - BATCH_SIZE / Z.to_nat UPDATE_EVERY.
Proof.
  change (Z.to_nat UPDATE_EVERY) with 4. change (BATCH_SIZE / 4) with 16.
  induction calls as [|[tr picks] calls IH] using rev_ind; intros Hpicks; [done|].
  rewrite run_snoc.
  set (self := run (Agent.init ss acts seed dd du lps tps adam0) calls) in *.
  assert (Agent.learn_calls self = length calls / 4 - 16) as Hself.
  { apply IH. intros i c Hi. apply Hpicks. by apply lookup_app_l_Some. }
  destruct (step_call_schedule self tr picks) as (_ & Ht & Hc & Hfire).
  cbn zeta in Ht, Hc, Hfire.
  assert (ReplayBuffer.len (Agent.memory (step_call self (tr, picks)))
          = S (length calls) `min` BUFFER_SIZE) as Hlen.
  { unfold self. rewrite <- run_snoc, run_len, length_app. cbn [length].
    f_equal. lia. }
  assert (Agent.t_step (step_call self (tr, picks)) = 0%Z
          ↔ S (length calls) `mod` 4 = 0) as Hwrap.
  { rewrite Ht. unfold self. rewrite run_t_step. unfold UPDATE_EVERY.
    rewrite next_counter. apply multiple_of_4. }
  rewrite Hlen in Hc, Hfire. rewrite length_app. cbn [length].
  replace (length calls + 1) with (S (length calls)) by lia.
  pose proof BUFFER_SIZE_above_batch as Hbuf. unfold BATCH_SIZE in Hbuf, Hc, Hfire.
  clear IH Ht.
  destruct (decide (S (length calls) `mod` 4 = 0 ∧ 64 < S (length calls)))
    as [[Hw Hb]|Hno].
  - destruct (step_sample_returns ss acts seed dd du lps tps adam0 calls tr picks)
      as (es & Hs & _).
    { fold self. rewrite Hlen. unfold BATCH_SIZE. lia. }
    { fold self. rewrite Hlen.
      apply (Hpicks (length calls) (tr, picks));
        [by rewrite lookup_app_r, Nat.sub_diag by lia|done|done]. }
    fold self in Hs.
    rewrite (Hfire (collate es)); [|by apply Hwrap|lia|exact Hs].
    rewrite Hself. symmetry. by apply count_fire.
  - assert (Agent.learn_calls (step_call self (tr, picks)) = Agent.learn_calls self)
      as ->.
    { destruct Hc as [Hc|(_ & Hw & Hb)]; [done|]. destruct Hno.
      split; [by apply Hwrap|lia]. }
    rewrite Hself. symmetry. by apply count_idle.
Qed.

End RunProperties.


(** ** Action selection and the bootstrap of [learn] *)

Section GreedyProperties.
Context {State : Type} `{!Torch State}.
Implicit Types (s self : Agent.t State).

Lemma shaped_online_nonempty self st :
  action_values_shaped self → q_online self st ≠ [].
Proof.
  intros (Hpos & Hshape) Hnil. destruct (Hshape st) as [Hl _].
  rewrite Hnil in Hl. cbn in Hl. lia.
Qed.

Lemma shaped_target_nonempty self st :
  action_values_shaped self → q_target self st ≠ [].
Proof.
  intros (Hpos & Hshape) Hnil. destruct (Hshape st) as [_ Hl].
  rewrite Hnil in Hl. cbn in Hl. lia.
Qed.

(** X6.  For every [eps] and every value of [random.random()], [act]
    returns, and what it returns is the index of an action: it lies in
    [0, action_size). *)
Theorem act_returns_action self st eps u r :
  action_values_shaped self → r < Agent.action_size self →
  ∃ a, Agent.act self st eps u r = Ok a
       ∧ (0 ≤ a < Z.of_nat (Agent.action_size self))%Z.
Proof.
  intros Hshape Hr.
  destruct (decide (eps < u)%Qc) as [Hlt|Hnlt].
  - destruct (act_greedy self st eps u r Hlt) as (a & m & (Ha & _) & Hact).
    { by apply shaped_online_nonempty. }
    exists (Z.of_nat a). split; [done|]. apply lookup_lt_Some in Ha.
    destruct Hshape as (_ & Hshape). destruct (Hshape st) as [Hl _]. lia.
  - exists (Z.of_nat r). split; [by apply act_explore|lia].
Qed.

(** X7.  With [double_dqn] set, the bootstrap value that [learn] uses
    for a sample never exceeds the maximum of the target network's
    action values on the next state, and is that maximum where the two
    networks give the same action values. *)
Theorem double_dqn_at_most_target_max self (next_states : list State) nmv i st v :
  action_values_shaped self → Agent.double_dqn self = true →
  Agent.next_max_values self next_states = Ok nmv →
  next_states !! i = Some st → value nmv !! i = Some v →
  ∃ a m, first_max_at (q_target self st) a m
         ∧ (v ≤ m)%Qc
         ∧ (q_online self st = q_target self st → v = m).
Proof.
  intros Hshape Hdd Hnmv Hst Hv.
  destruct (next_max_values_spec self next_states Hshape) as (nmv' & Hnmv' & _ & _ & Hspec).
  rewrite Hnmv in Hnmv'. injection Hnmv' as <-.
  destruct (Hspec i st Hst) as [Hd _].
  destruct (Hd Hdd) as (a & m0 & v' & Hfm & Hta & Hv').
  rewrite Hv in Hv'. injection Hv' as <-.
  destruct (np_argmax_first_max (q_target self st)) as (a' & m & _ & Hfm').
  { by apply shaped_target_nonempty. }
  exists a', m. split_and!; [done| |].
  - destruct Hfm' as (_ & Hmax & _). by eapply Hmax.
  - intros Heq. rewrite Heq in Hfm.
    destruct (first_max_at_unique _ _ _ _ _ Hfm Hfm') as [_ <-].
    destruct Hfm as (Ha & _). congruence.
Qed.

End GreedyProperties.


(** ** The soft update, continued *)

Section BlendProperties.
Context {State : Type} `{!Torch State}.
Implicit Types (s self : Agent.t State).

Lemma zip_fst_take {A B : Type} (t : list A) (l : list B) :
  (zip t l).*1 = take (length l) t.
Proof.
  revert l. induction t as [|x t IH]; intros [|y l]; cbn; try done.
  by rewrite IH.
Qed.

(** X12.  Whether it returns or raises, [soft_update] writes to no
    tensor other than the target tensors that have an online partner,
    and touches neither the gradients nor the replay memory nor the step
    counter; when no target tensor is a parameter of the agent's online
    network, [act] returns after the call what it returned before. *)
Theorem soft_update_writes_only_paired_targets self local_model target_model tau :
  let self' := (Agent.soft_update local_model target_model tau self).1 in
  (∀ p, p ∉ take (length local_model) target_model →
     Agent.data self' !! p = Agent.data self !! p)
  ∧ Agent.grad self' = Agent.grad self
  ∧ Agent.memory self' = Agent.memory self
  ∧ Agent.t_step self' = Agent.t_step self
  ∧ ((∀ p, p ∈ target_model → p ∉ Agent.qnetwork_local self) →
     ∀ st eps u r, Agent.act self' st eps u r = Agent.act self st eps u r).
Proof.
  intros self'.
  assert (∀ p, p ∉ take (length local_model) target_model →
            Agent.data self' !! p = Agent.data self !! p) as Hframe.
  { intros p Hp. apply soft_update_pairs_frame. by rewrite zip_fst_take. }
  destruct (soft_update_params_only local_model target_model tau self)
    as [(Hl & _ & _ & Ha & _) (Hm & Ht & _)].
  fold self' in Hl, Ha, Hm, Ht.
  split_and!; [done|apply soft_update_grad|done|done|].
  intros Hdisj st eps u r. unfold Agent.act. rewrite Ha, Hl.
  replace (Agent.parameters self' (Agent.qnetwork_local self))
    with (Agent.parameters self (Agent.qnetwork_local self)); [done|].
  unfold Agent.parameters. apply list_fmap_ext. intros k p Hp.
  symmetry. apply param_data_eq, Hframe. intros Hin.
  apply elem_of_take in Hin as (k' & Hk' & _).
  eapply Hdisj; by eapply list_elem_of_lookup_2.
Qed.

End BlendProperties.


(** ** The gradient step of [learn] *)

Section LearnProperties.
Context {State : Type} `{!Torch State}.
Implicit Types (s self : Agent.t State).

(** The current estimates of a batch whose actions are actions. *)
Lemma selected_outputs_ok self states actions rewards next_states dones :
  action_values_shaped self →
  length actions = length states →
  Forall (λ a, (0 ≤ a < Z.of_nat (Agent.action_size self))%Z) actions →
  ∃ so, Agent.selected_outputs self (states, actions, rewards, next_states, dones) = Ok so
        ∧ length (value so) = length states.
Proof.
  intros (Hpos & Hshape) Hlen Hact.
  assert (actions = Z.of_nat <$> (Z.to_nat <$> actions)) as Hnat.
  { rewrite <- list_fmap_compose. symmetry. etrans; [|apply list_fmap_id].
    apply list_fmap_ext. intros k a Ha. cbn.
    eapply Forall_lookup_1 in Hact; [|done]. cbn in Hact. lia. }
  destruct (torch_gather1_ok (q_online self <$> states) (Z.to_nat <$> actions))
    as (v & Hv & Hlv & _).
  { by rewrite !length_fmap. }
  { intros k row a Hrow Ha. rewrite list_lookup_fmap in Hrow. rewrite list_lookup_fmap in Ha.
    destruct (states !! k) as [st|]; [|done]. cbn in Hrow. injection Hrow as <-.
    destruct (actions !! k) as [z|] eqn:Hz; [|done]. cbn in Ha. injection Ha as <-.
    eapply Forall_lookup_1 in Hact; [|done]. cbn in Hact.
    destruct (Hshape st) as [-> _]. lia. }
  rewrite <- Hnat in Hv.
  unfold Agent.selected_outputs, tensor_gather1, Agent.call, const. cbn [value graph].
  change (QNetwork_forward (Agent.parameters self (Agent.qnetwork_local self)) <$> states)
    with (q_online self <$> states).
  rewrite Hv. cbn [result_bind]. eexists. split; [done|]. cbn [value].
  by rewrite Hlv, length_fmap.
Qed.

Lemma mse_loss_ok (input target : tensor (list Qc)) :
  length (value input) = length (value target) →
  ∃ loss, mse_loss input target = Ok loss.
Proof.
  intros Hlen. unfold mse_loss, tensor_binop.
  rewrite broadcast2_same_length by done. cbn [result_bind]. by eexists.
Qed.

(** The ghost counter of [learn] takes no part in the gradient step. *)
Lemma gradient_step_param_count_learn (experiences : Batch State) gamma s :
  (Agent.gradient_step experiences gamma (Agent.count_learn s)).2
    = (Agent.gradient_step experiences gamma s).2
  ∧ Agent.data (Agent.gradient_step experiences gamma (Agent.count_learn s)).1
    = Agent.data (Agent.gradient_step experiences gamma s).1.
Proof.
  rewrite !gradient_step_eq.
  change (Agent.targets (Agent.count_learn s) experiences gamma)
    with (Agent.targets s experiences gamma).
  change (Agent.selected_outputs (Agent.count_learn s) experiences)
    with (Agent.selected_outputs s experiences).
  destruct (Agent.targets s experiences gamma) as [tg|]; [|done].
  destruct (Agent.selected_outputs s experiences) as [so|]; [|done].
  by destruct (mse_loss so tg).
Qed.

(** X14.  On a batch of one length whose actions are actions, [learn]
    returns (the optimizer keeping the shapes of the online tensors),
    and it takes the gradient step before the soft update: every target
    tensor ends as the blend of its old value with the online tensor as
    the optimizer has just updated it, and the soft update leaves the
    online tensors as the optimizer made them. *)
Theorem learn_returns_and_blends self states actions rewards next_states dones gamma :
  action_values_shaped self → separate_networks self →
  same_shapes self (Agent.qnetwork_local self) (Agent.qnetwork_target self) →
  length actions = length states → length next_states = length states →
  length rewards = length states → length dones = length states →
  Forall (λ a, (0 ≤ a < Z.of_nat (Agent.action_size self))%Z) actions →
  let batch := (states, actions, rewards, next_states, dones) in
  let s1 := (Agent.gradient_step batch gamma self).1 in
  let s2 := (Agent.learn batch gamma self).1 in
  (∀ p, p ∈ Agent.qnetwork_local self →
     length (Agent.param s1 p) = length (Agent.param self p)) →
  (Agent.gradient_step batch gamma self).2 = Ok tt
  ∧ (Agent.learn batch gamma self).2 = Ok tt
  ∧ ∀ i tp lp, Agent.qnetwork_target self !! i = Some tp →
               Agent.qnetwork_local self !! i = Some lp →
      Agent.param s2 lp = Agent.param s1 lp
      ∧ Agent.param s2 tp = polyak TAU (Agent.param s1 lp) (Agent.param self tp).
Proof.
  intros Hshape Hsep Hsame Hla Hln Hlr Hld Hact batch s1 s2 Hkeep.
  pose proof Hsep as (Hopt & Hnd & Hdisj).
  assert ((Agent.gradient_step batch gamma self).2 = Ok tt) as Hret.
  { rewrite gradient_step_eq.
    destruct (targets_spec self states actions rewards next_states dones gamma Hshape)
      as (_ & _ & tg & _ & _ & Htg & _ & Hltg & _); [lia..|].
    destruct (selected_outputs_ok self states actions rewards next_states dones
                Hshape Hla Hact) as (so & Hso & Hlso).
    fold batch in Htg, Hso. rewrite Htg, Hso.
    destruct (mse_loss_ok so tg) as (loss & ->); [lia|done]. }
  split; [done|].
  destruct (gradient_step_param_count_learn batch gamma self) as [Hret0 Hdata0].
  destruct (gradient_step_params_only batch gamma (Agent.count_learn self))
    as [(Hl & Ht & _) _].
  change (Agent.qnetwork_local (Agent.count_learn self))
    with (Agent.qnetwork_local self) in Hl.
  change (Agent.qnetwork_target (Agent.count_learn self))
    with (Agent.qnetwork_target self) in Ht.
  assert (∀ p, Agent.param (Agent.gradient_step batch gamma (Agent.count_learn self)).1 p
               = Agent.param s1 p) as Hp0.
  { intros p. unfold Agent.param, s1. by rewrite Hdata0. }
  assert (∀ tp, tp ∈ Agent.qnetwork_target self → Agent.param s1 tp = Agent.param self tp)
    as Htarget.
  { intros tp Htp. apply param_data_eq.
    apply gradient_step_other; [rewrite Hopt|]; by apply Hdisj. }
  unfold s2. rewrite learn_eq. rewrite Hret in Hret0.
  destruct (Agent.gradient_step batch gamma (Agent.count_learn self)) as [s0 r0].
  cbn [fst snd] in *. subst r0. rewrite Hl, Ht.
  destruct (soft_update_once s0 (Agent.qnetwork_local self) (Agent.qnetwork_target self)
              TAU Hnd Hdisj) as (s' & -> & Hall).
  { intros tp lp Hin. rewrite !Hp0.
    rewrite Htarget by (by eapply elem_of_zip_l).
    rewrite Hkeep by (by eapply elem_of_zip_r). by apply Hsame. }
  split; [done|]. intros i tp lp Htp Hlp. cbn [fst].
  destruct (Hall i tp lp Htp Hlp) as [Hb Ho]. rewrite Hb, Ho, !Hp0.
  split; [done|]. f_equal. apply Htarget. by eapply list_elem_of_lookup_2.
Qed.

Lemma foldr_alter_in (f : list Qc → list Qc) (m : gmap nat (list Qc)) l p :
  (∀ x, f (f x) = f x) → p ∈ l → foldr (alter f) m l !! p = f <$> m !! p.
Proof.
  intros Hf. induction l as [|x l IH]; intros Hp; [by apply elem_of_nil in Hp|].
  cbn. destruct (decide (p = x)) as [->|Hne].
  - rewrite lookup_alter_eq. destruct (decide (x ∈ l)) as [Hin|Hnin].
    + rewrite IH by done. destruct (m !! x); cbn; by rewrite ?Hf.
    + by rewrite foldr_alter_other.
  - rewrite lookup_alter_ne by done. apply IH.
    apply elem_of_cons in Hp as [?|?]; done.
Qed.

(** [backward] on a leaf of the graph: the gradient is stored, or added
    to the one present. *)
Lemma backward_in (loss : tensor Qc) s p :
  p ∈ graph loss →
  Agent.grad (Agent.backward loss s).1 !! p
  = Some (match Agent.grad s !! p with
          | Some old => zip_with Qcplus old (autograd loss p)
          | None => autograd loss p
          end).
Proof.
  cbn.
  apply (set_fold_ind_L (λ (g : gmap nat (list Qc)) (X : gset nat),
           (∀ q, q ∉ X → g !! q = Agent.grad s !! q)
           ∧ (p ∈ X → g !! p
                = Some (match Agent.grad s !! p with
                        | Some old => zip_with Qcplus old (autograd loss p)
                        | None => autograd loss p
                        end)))).
  - split; [done|]. intros Hp. by apply elem_of_empty in Hp.
  - intros x X g Hx [Hout Hin]. split.
    + intros q Hq. apply not_elem_of_union in Hq as [Hne Hq].
      apply not_elem_of_singleton in Hne.
      destruct (g !! x); rewrite lookup_insert_ne by done; by apply Hout.
    + intros Hp. destruct (decide (p = x)) as [->|Hne].
      * rewrite (Hout x Hx). destruct (Agent.grad s !! x); by rewrite lookup_insert_eq.
      * apply elem_of_union in Hp as [Hp|Hp]; [by apply elem_of_singleton in Hp|].
        destruct (g !! x); rewrite lookup_insert_ne by done; by apply Hin.
Qed.

Lemma zip_with_zeros_prefix (old ag : list Qc) j x :
  zip_with Qcplus ((λ _, 0%Qc) <$> old) ag !! j = Some x → ag !! j = Some x.
Proof.
  intros Hj. apply lookup_zip_with_Some in Hj as (z & y & -> & Hz & Hy).
  rewrite list_lookup_fmap in Hz. destruct (old !! j); [|done].
  cbn in Hz. injection Hz as <-. by rewrite Qcplus_0_l.
Qed.

Lemma zip_with_zeros (old ag : list Qc) :
  length old = length ag → zip_with Qcplus ((λ _, 0%Qc) <$> old) ag = ag.
Proof.
  revert ag. induction old as [|o old IH]; intros [|y ag] Hl; try done.
  cbn in *. f_equal; [apply Qcplus_0_l|]. apply IH. lia.
Qed.

(** X15.  Gradients do not accumulate over calls of [learn]: after a
    gradient step that returns, the gradient of every online tensor
    agrees, entry by entry, with the gradient that [backward] computes
    for the loss of this batch, whatever gradient the tensor had before;
    it is that gradient when the tensor had none or one of its shape. *)
Theorem gradient_step_fresh_gradients (experiences : Batch State) gamma s s1 p :
  Agent.optimizer s = Agent.qnetwork_local s →
  Agent.gradient_step experiences gamma s = (s1, Ok tt) →
  p ∈ Agent.qnetwork_local s →
  ∃ tg so loss g,
    Agent.targets s experiences gamma = Ok tg
    ∧ Agent.selected_outputs s experiences = Ok so
    ∧ mse_loss so tg = Ok loss
    ∧ Agent.grad s1 !! p = Some g
    ∧ (∀ j x, g !! j = Some x → autograd loss p !! j = Some x)
    ∧ ((∀ old, Agent.grad s !! p = Some old → length old = length (autograd loss p)) →
       g = autograd loss p).
Proof.
  intros Hopt Hstep Hp. rewrite gradient_step_eq in Hstep.
  destruct (Agent.targets s experiences gamma) as [tg|] eqn:Htg; [|done].
  destruct (Agent.selected_outputs s experiences) as [so|] eqn:Hso; [|done].
  destruct (mse_loss so tg) as [loss|] eqn:Hloss; [|done].
  injection Hstep as <-.
  assert (p ∈ graph loss) as Hg.
  { apply mse_loss_graph in Hloss. apply targets_graph in Htg.
    apply selected_outputs_graph in Hso.
    by rewrite Hloss, Htg, Hso, union_empty_r_L, elem_of_list_to_set. }
  assert (Agent.grad (Agent.zero_grad s).1 !! p
          = fmap (λ _, 0%Qc) <$> Agent.grad s !! p) as Hz.
  { cbn. apply foldr_alter_in; [|by rewrite Hopt].
    intros x. by rewrite <- list_fmap_compose. }
  pose proof (backward_in loss (Agent.zero_grad s).1 p Hg) as Hb. rewrite Hz in Hb.
  change (Agent.grad (Agent.optimizer_step
            (Agent.backward loss (Agent.zero_grad s).1).1).1)
    with (Agent.grad (Agent.backward loss (Agent.zero_grad s).1).1).
  exists tg, so, loss. eexists. split_and!; [done|done|done|exact Hb| |].
  - destruct (Agent.grad s !! p) as [old|]; cbn; [|done].
    intros j x. apply zip_with_zeros_prefix.
  - intros Hlen. destruct (Agent.grad s !! p) as [old|]; cbn; [|done].
    apply zip_with_zeros. by apply Hlen.
Qed.

End LearnProperties.


(** ** Binary32 arithmetic *)

Section Float32Properties.








End Float32Properties.

(** ** The TD target in binary32 *)

Section TargetArithmetic.
Context {State : Type}.



End TargetArithmetic.

(** ** The soft update in binary32 *)

Section SoftUpdateArithmetic.
Implicit Types (data : gmap nat (list spec_float)).








End SoftUpdateArithmetic.

(** ** [random.sample] *)

Section RandomSample.

(** The live part of the pool after an iteration holds what it held
    before, but for the item drawn. *)
Lemma pool_step {A : Type} (pool : list A) m j x y :
  j < S m → pool !! j = Some x → pool !! m = Some y →
  x :: take m (<[j := y]> pool) ≡ₚ take (S m) pool.
Proof.
  intros Hj Hx Hy. rewrite (take_S_r pool m y Hy).
  destruct (decide (j = m)) as [->|Hne].
  - rewrite Hx in Hy. injection Hy as ->.
    rewrite list_insert_id by done. apply Permutation_cons_append.
  - assert (j < m) as Hlt by lia.
    rewrite take_insert_lt by done.
    set (l0 := take m pool).
    assert (l0 !! j = Some x) as Hx0 by (unfold l0; by rewrite lookup_take_lt).
    assert (j < length l0) as Hjl by (by eapply lookup_lt_Some).
    rewrite <- Permutation_cons_append.
    rewrite (insert_take_drop l0 j y Hjl).
    trans (y :: (take j l0 ++ x :: drop (S j) l0)).
    + rewrite <- !Permutation_middle. apply Permutation_swap.
    + by rewrite take_drop_middle.
Qed.

Lemma submseteq_NoDup_l {A : Type} (l k : list A) : l ⊆+ k → NoDup k → NoDup l.
Proof.
  intros Hsub Hnd. apply submseteq_sublist_r in Hsub as (l2 & Hperm & Hsl).
  rewrite Hperm. by eapply sublist_NoDup.
Qed.

(** The pool loop returns [k] items of the live part of the pool, each
    drawn once. *)
Lemma sample_pool_spec {A : Type} k : ∀ (pool : list A) n i draws res,
  sample_pool pool n k i draws = Some res →
  length res = k
  ∧ res ⊆+ take (n - i) pool.
Proof.
  induction k as [|k IH]; intros pool n i draws res Hres.
  { injection Hres as <-. split; [done|]. apply submseteq_nil_l. }
  cbn [sample_pool] in Hres. destruct draws as [|j draws]; [done|].
  case_decide as Hj; [|done].
  destruct (pool !! j) as [x|] eqn:Hx; [|done]. cbn in Hres.
  destruct (pool !! (n - i - 1)) as [y|] eqn:Hy; [|done]. cbn in Hres.
  destruct (sample_pool _ n k (S i) draws) as [rest|] eqn:Hrest; [|done].
  injection Hres as <-.
  destruct (IH _ _ _ _ _ Hrest) as [Hlen Hsub].
  split; [cbn; lia|].
  replace (n - i) with (S (n - i - 1)) by lia.
  rewrite <- (pool_step pool (n - i - 1) j x y) by (done || lia).
  apply submseteq_skip. by replace (n - S i) with (n - i - 1) in Hsub by lia.
Qed.

(** The draws of a run of the pool loop are determined by what it
    returns, when the live part of the pool holds no item twice. *)
Lemma sample_pool_inj {A : Type} k : ∀ (pool : list A) n i draws1 draws2 res,
  NoDup (take (n - i) pool) →
  sample_pool pool n k i draws1 = Some res →
  sample_pool pool n k i draws2 = Some res →
  take k draws1 = take k draws2.
Proof.
  induction k as [|k IH]; intros pool n i draws1 draws2 res Hnd H1 H2; [done|].
  cbn [sample_pool] in H1, H2.
  destruct draws1 as [|j1 draws1]; [done|]. destruct draws2 as [|j2 draws2]; [done|].
  case_decide as Hj1; [|done]. case_decide as Hj2; [|done].
  destruct (pool !! j1) as [x1|] eqn:Hx1; [|done]. cbn in H1.
  destruct (pool !! j2) as [x2|] eqn:Hx2; [|done]. cbn in H2.
  destruct (pool !! (n - i - 1)) as [y|] eqn:Hy; [|done]. cbn in H1, H2.
  destruct (sample_pool (<[j1 := y]> pool) n k (S i) draws1) as [r1|] eqn:Hr1; [|done].
  destruct (sample_pool (<[j2 := y]> pool) n k (S i) draws2) as [r2|] eqn:Hr2; [|done].
  injection H1 as <-. injection H2 as Hx Hr. subst x2 r2.
  assert (j1 = j2) as <-.
  { eapply (NoDup_lookup (take (n - i) pool)); [done| |];
      rewrite lookup_take_lt by done; done. }
  cbn [take]. f_equal. eapply (IH _ n (S i)); [|done..].
  assert (x1 :: take (n - i - 1) (<[j1 := y]> pool) ≡ₚ take (n - i) pool) as Hperm.
  { replace (n - i) with (S (n - i - 1)) at 2 by lia.
    apply pool_step; [lia|done..]. }
  rewrite <- Hperm in Hnd. apply NoDup_cons in Hnd as [_ Hnd].
  by replace (n - S i) with (n - i - 1) by lia.
Qed.

(** Every choice of [k] different items of the live part of the pool is
    returned by a run of the pool loop. *)
Lemma sample_pool_surj {A : Type} k : ∀ (pool : list A) n i res,
  n - i ≤ length pool →
  NoDup (take (n - i) pool) →
  length res = k → NoDup res → res ⊆ take (n - i) pool →
  ∃ draws, length draws = k ∧ sample_pool pool n k i draws = Some res.
Proof.
  induction k as [|k IH]; intros pool n i res Hn Hnd Hlen Hres Hsub.
  { destruct res; [|done]. by exists []. }
  destruct res as [|x rest]; [done|]. cbn in Hlen.
  apply NoDup_cons in Hres as [Hx Hrest].
  assert (x ∈ take (n - i) pool) as Hin by (apply Hsub; by left).
  apply list_elem_of_lookup in Hin as [j Hj].
  assert (j < n - i) as Hlt.
  { apply lookup_lt_Some in Hj. rewrite length_take in Hj. lia. }
  rewrite lookup_take_lt in Hj by done.
  destruct (lookup_lt_is_Some_2 pool (n - i - 1)) as [y Hy]; [lia|].
  assert (x :: take (n - i - 1) (<[j := y]> pool) ≡ₚ take (n - i) pool) as Hperm.
  { replace (n - i) with (S (n - i - 1)) at 2 by lia.
    apply pool_step; [lia|done..]. }
  destruct (IH (<[j := y]> pool) n (S i) rest) as (draws & Hld & Hrun).
  - rewrite length_insert. lia.
  - rewrite <- Hperm in Hnd. apply NoDup_cons in Hnd as [_ Hnd].
    by replace (n - S i) with (n - i - 1) by lia.
  - lia.
  - done.
  - intros z Hz. replace (n - S i) with (n - i - 1) by lia.
    assert (z ∈ x :: take (n - i - 1) (<[j := y]> pool)) as Hz'.
    { rewrite Hperm. apply Hsub. by right. }
    apply elem_of_cons in Hz' as [->|Hz']; [done|done].
  - exists (j :: draws). split; [cbn; lia|].
    cbn [sample_pool]. rewrite decide_True by done.
    rewrite Hj. cbn. rewrite Hy. cbn. by rewrite Hrun.
Qed.

(** The draw that ends the inner loop is below [n] and not selected. *)
Lemma first_unselected_spec n selected draws j draws' :
  first_unselected n selected draws = Some (j, draws') →
  j < n ∧ j ∉ selected.
Proof.
  induction draws as [|d draws IH]; [done|]. cbn.
  case_decide; [|done]. case_decide; [done|]. by intros [= <- <-].
Qed.

(** The loop with a set returns [k] different positions that were not
    selected before, and the items there. *)
Lemma sample_set_spec {A : Type} (population : list A) n k :
  ∀ selected draws res,
  sample_set population n k selected draws = Some res →
  ∃ picks, length picks = k ∧ NoDup picks
    ∧ Forall (λ j, j < n ∧ j ∉ selected) picks
    ∧ Forall2 (λ x j, population !! j = Some x) res picks
    ∧ sample_set (seq 0 n) n k selected draws = Some picks.
Proof.
  induction k as [|k IH]; intros selected draws res Hres.
  { injection Hres as <-. exists []. split_and!; [done|constructor..|done]. }
  cbn [sample_set] in *.
  destruct (first_unselected n selected draws) as [[j draws']|] eqn:Hf; [|done].
  cbn in *. destruct (first_unselected_spec _ _ _ _ _ Hf) as [Hj Hsel].
  destruct (population !! j) as [x|] eqn:Hx; [|done]. cbn in Hres.
  destruct (sample_set population n k (j :: selected) draws') as [rest|] eqn:Hrest;
    [|done].
  injection Hres as <-.
  destruct (IH _ _ _ Hrest) as (picks & Hlen & Hnd & Hall & Hat & Hpos).
  exists (j :: picks). split_and!.
  - cbn. lia.
  - apply NoDup_cons. split; [|done]. intros Hin.
    eapply Forall_forall in Hall; [|done]. destruct Hall as [_ Hn]. apply Hn. by left.
  - constructor; [done|]. eapply List.Forall_impl; [|exact Hall].
    intros z [Hz Hn]. split; [done|]. intros Hin. apply Hn. by right.
  - by constructor.
  - rewrite lookup_seq_lt by done. cbn. by rewrite Hpos.
Qed.

(** Draws that are different positions are all accepted. *)
Lemma sample_set_distinct n k : ∀ selected picks,
  length picks = k → NoDup picks →
  Forall (λ j, j < n ∧ j ∉ selected) picks →
  sample_set (seq 0 n) n k selected picks = Some picks.
Proof.
  induction k as [|k IH]; intros selected picks Hlen Hnd Hall.
  { by destruct picks. }
  destruct picks as [|j picks]; [done|]. cbn in Hlen.
  apply NoDup_cons in Hnd as [Hj Hnd].
  apply Forall_cons in Hall as [[Hlt Hsel] Hall].
  cbn [sample_set first_unselected].
  rewrite decide_True by done. rewrite decide_False by done. cbn.
  rewrite lookup_seq_lt by done. cbn. rewrite IH; [done|lia|done|].
  apply Forall_forall. intros z Hz. eapply Forall_forall in Hall; [|done].
  destruct Hall as [Hzn Hzs]. split; [done|].
  intros Hin. apply elem_of_cons in Hin as [->|Hin]; [done|done].
Qed.

(** The loop with a set commutes with a renaming of the positions. *)
Lemma first_unselected_renaming n σ (selected draws : list nat) :
  renaming n σ →
  first_unselected n (σ <$> selected) (σ <$> draws)
  = prod_map σ (fmap (M := list) σ) <$> first_unselected n selected draws.
Proof.
  intros [Hinj Hran]. induction draws as [|d draws IH]; [done|]. cbn.
  destruct (decide (d < n)) as [Hd|Hd].
  - rewrite decide_True by (by apply (proj1 (Hran d))).
    destruct (decide (d ∈ selected)) as [Hs|Hs].
    + rewrite decide_True by (by apply list_elem_of_fmap_2). done.
    + rewrite decide_False; [done|]. intros Hin.
      apply list_elem_of_fmap in Hin as (d' & Heq & Hin).
      apply Hinj in Heq as ->. done.
  - rewrite decide_False; [done|]. intros Hlt. by apply (proj2 (Hran d)) in Hlt.
Qed.

Lemma sample_set_renaming n σ k : ∀ selected draws : list nat,
  renaming n σ →
  sample_set (seq 0 n) n k (σ <$> selected) (σ <$> draws)
  = fmap (M := list) σ <$> sample_set (seq 0 n) n k selected draws.
Proof.
  induction k as [|k IH]; intros selected draws Hσ; [done|].
  cbn [sample_set]. rewrite first_unselected_renaming by done.
  destruct (first_unselected n selected draws) as [[j draws']|] eqn:Hf; [|done].
  cbn. destruct (first_unselected_spec _ _ _ _ _ Hf) as [Hj _].
  rewrite (lookup_seq_lt 0 n j Hj).
  rewrite (lookup_seq_lt 0 n (σ j)) by (by apply (proj1 (proj2 Hσ j))). cbn.
  change (σ j :: (σ <$> selected)) with (σ <$> (j :: selected)).
  rewrite IH by done. by destruct (sample_set _ n k (j :: selected) draws').
Qed.

(** What [random.sample] returns on a population is what it returns on
    the positions, looked up in the population. *)
Lemma sample_pool_positions {A : Type} (population : list A) k :
  ∀ (pool : list A) (idx : list nat) n i draws res,
  Forall2 (λ x j, population !! j = Some x) pool idx →
  sample_pool pool n k i draws = Some res →
  ∃ picks, sample_pool idx n k i draws = Some picks
           ∧ Forall2 (λ x j, population !! j = Some x) res picks.
Proof.
  induction k as [|k IH]; intros pool idx n i draws res Hrel Hres.
  { injection Hres as <-. exists []. split; [done|constructor]. }
  cbn [sample_pool] in *. destruct draws as [|j draws]; [done|].
  case_decide as Hj; [|done].
  destruct (pool !! j) as [x|] eqn:Hx; [|done]. cbn in Hres.
  destruct (pool !! (n - i - 1)) as [y|] eqn:Hy; [|done]. cbn in Hres.
  destruct (sample_pool (<[j := y]> pool) n k (S i) draws) as [rest|] eqn:Hrest; [|done].
  injection Hres as <-.
  destruct (Forall2_lookup_l _ _ _ _ _ Hrel Hx) as (px & Hpx & Hxx).
  destruct (Forall2_lookup_l _ _ _ _ _ Hrel Hy) as (py & Hpy & Hyy).
  rewrite Hpx, Hpy. cbn.
  destruct (IH (<[j := y]> pool) (<[j := py]> idx) n (S i) draws rest)
    as (picks & Hpicks & Hat); [by apply Forall2_insert|done|].
  rewrite Hpicks. cbn. exists (px :: picks). split; [done|]. by constructor.
Qed.

Lemma seq_positions {A : Type} (population : list A) :
  Forall2 (λ x j, population !! j = Some x) population (seq 0 (length population)).
Proof.
  apply Forall2_same_length_lookup_2; [by rewrite length_seq|].
  intros i x j Hx Hj. apply lookup_seq in Hj as [-> _]. done.
Qed.

Lemma positions_omap {A : Type} (population : list A) res picks :
  Forall2 (λ x j, population !! j = Some x) res picks →
  omap (λ j, population !! j) picks = res.
Proof.
  induction 1 as [|x j res picks Hx _ IH]; [done|]. cbn. by rewrite Hx, IH.
Qed.

(** A call of [random.sample] that returns: the positions it chose are
    [k] different positions of the population, and it returns the items
    at these positions. *)
Lemma python_random_sample_Ok {A : Type} (population : list A) k draws res :
  python_random_sample population k draws = Some (Ok res) →
  ∃ picks, sample_positions (length population) k draws = Some picks
    ∧ sample_picks (length population) k picks
    ∧ random_sample population k picks = Ok res.
Proof.
  intros Hrun. unfold sample_positions, python_random_sample in *.
  rewrite length_seq. set (n := length population) in *.
  destruct (decide (k ≤ n)) as [Hk|Hk]; [|done].
  destruct (decide (n ≤ setsize k)) as [Hsmall|Hbig].
  - destruct (sample_pool population n k 0 draws) as [res'|] eqn:Hres; [|done].
    injection Hrun as <-.
    destruct (sample_pool_positions population k population (seq 0 n) n 0 draws res')
      as (picks & Hpicks & Hat); [apply seq_positions|done|].
    rewrite Hpicks. cbn. exists picks. split; [done|].
    destruct (sample_pool_spec k _ _ _ _ _ Hpicks) as [Hlen Hsub].
    rewrite Nat.sub_0_r, take_ge in Hsub by (rewrite length_seq; lia).
    unfold sample_picks. split_and!.
    + done.
    + eapply submseteq_NoDup_l; [done|apply NoDup_seq].
    + apply Forall_forall. intros j Hj.
      assert (j ∈ seq 0 n) as Hin by (by eapply elem_of_submseteq).
      apply elem_of_seq in Hin. lia.
    + unfold random_sample. fold n. rewrite decide_True by done.
      f_equal. by apply positions_omap.
  - destruct (sample_set population n k [] draws) as [res'|] eqn:Hres; [|done].
    injection Hrun as <-.
    destruct (sample_set_spec population n k [] draws res' Hres)
      as (picks & Hlen & Hnd & Hall & Hat & Hpos).
    rewrite Hpos. cbn. exists picks. split; [done|].
    unfold sample_picks. split_and!; [done..| |].
    + eapply List.Forall_impl; [|exact Hall]. by intros j [Hj _].
    + unfold random_sample. fold n. rewrite decide_True by done.
      f_equal. by apply positions_omap.
Qed.

(** The pool loop returns when every draw is a value that [_randbelow]
    can return. *)
Lemma sample_pool_returns {A : Type} k : ∀ (pool : list A) n i draws,
  n - i ≤ length pool → k ≤ n - i → k ≤ length draws →
  (∀ t d, draws !! t = Some d → t < k → d < n - i - t) →
  is_Some (sample_pool pool n k i draws).
Proof.
  induction k as [|k IH]; intros pool n i draws Hn Hk Hl Hran; [by eexists|].
  destruct draws as [|j draws]; [cbn in Hl; lia|]. cbn in Hl.
  cbn [sample_pool].
  assert (j < n - i) as Hj.
  { specialize (Hran 0 j eq_refl). lia. }
  rewrite decide_True by done.
  destruct (lookup_lt_is_Some_2 pool j) as [x ->]; [lia|]. cbn.
  destruct (lookup_lt_is_Some_2 pool (n - i - 1)) as [y ->]; [lia|]. cbn.
  destruct (IH (<[j := y]> pool) n (S i) draws) as [rest ->]; [| | | |by eexists].
  - rewrite length_insert. lia.
  - lia.
  - lia.
  - intros t d Ht Htk. specialize (Hran (S t) d Ht). lia.
Qed.

(** The inner loop ends when a draw that is not selected comes. *)
Lemma first_unselected_returns n (selected draws : list nat) :
  Forall (λ d, d < n) draws →
  (∃ d, d ∈ draws ∧ d ∉ selected) →
  ∃ j draws', first_unselected n selected draws = Some (j, draws')
    ∧ (list_to_set draws : gset nat) ∖ list_to_set selected
      = {[j]} ∪ (list_to_set draws' ∖ list_to_set (j :: selected)).
Proof.
  induction draws as [|d draws IH]; intros Hall (d0 & Hin & Hsel).
  { by apply elem_of_nil in Hin. }
  apply Forall_cons in Hall as [Hd Hall]. cbn [first_unselected].
  rewrite decide_True by done.
  destruct (decide (d ∈ selected)) as [Hds|Hds].
  - destruct IH as (j & draws' & -> & Heq); [done| |].
    { exists d0. split; [|done].
      apply elem_of_cons in Hin as [->|Hin]; [done|done]. }
    exists j, draws'. split; [done|]. rewrite <- Heq. cbn [list_to_set].
    apply set_eq. intros z. rewrite !elem_of_difference, elem_of_union,
      elem_of_singleton, !elem_of_list_to_set.
    split; [|tauto]. intros [[->|Hz] Hzs]; [done|tauto].
  - exists d, draws. split; [done|]. cbn [list_to_set].
    apply set_eq. intros z. rewrite !elem_of_union, !elem_of_difference, !elem_of_union,
      !elem_of_singleton, !elem_of_list_to_set.
    destruct (decide (z = d)) as [->|Hne]; [tauto|]. tauto.
Qed.

(** The loop with a set returns when the draws hold [k] different
    positions that are not selected. *)
Lemma sample_set_returns n k : ∀ (selected draws : list nat),
  Forall (λ d, d < n) draws →
  k ≤ size ((list_to_set draws : gset nat) ∖ list_to_set selected) →
  is_Some (sample_set (seq 0 n) n k selected draws).
Proof.
  induction k as [|k IH]; intros selected draws Hall Hsize; [by eexists|].
  destruct (first_unselected_returns n selected draws Hall) as (j & draws' & Hf & Heq).
  { destruct (set_choose_L ((list_to_set draws : gset nat) ∖ list_to_set selected))
      as [d Hd].
    { intros Hempty. rewrite Hempty, size_empty in Hsize. lia. }
    exists d. apply elem_of_difference in Hd as [Hd1 Hd2].
    by rewrite !elem_of_list_to_set in Hd1, Hd2. }
  cbn [sample_set]. rewrite Hf. cbn.
  destruct (first_unselected_spec _ _ _ _ _ Hf) as [Hj Hsel].
  rewrite lookup_seq_lt by done. cbn.
  assert (Forall (λ d, d < n) draws') as Hall'.
  { clear -Hf Hall. revert Hf. induction draws as [|d draws IHd]; [done|].
    apply Forall_cons in Hall as [Hd Hall]. cbn.
    rewrite decide_True by done. case_decide; [by apply IHd|].
    by intros [= <- <-]. }
  destruct (IH (j :: selected) draws' Hall') as [rest ->]; [|by eexists].
  rewrite Heq in Hsize. rewrite size_union in Hsize.
  - rewrite size_singleton in Hsize. lia.
  - apply disjoint_singleton_l. intros Hin.
    apply elem_of_difference in Hin as [_ Hin]. apply Hin.
    apply elem_of_list_to_set. by left.
Qed.

End RandomSample.

(** ** Sampling the replay memory *)

Section SampleProperties.
Context {State : Type}.

Lemma sample_positions_eq n k draws :
  k ≤ n →
  sample_positions n k draws
  = if decide (n ≤ setsize k) then sample_pool (seq 0 n) n k 0 draws
    else sample_set (seq 0 n) n k [] draws.
Proof.
  intros Hk. unfold sample_positions, python_random_sample. rewrite length_seq.
  rewrite decide_True by done.
  destruct (decide (n ≤ setsize k)).
  - by destruct (sample_pool (seq 0 n) n k 0 draws).
  - by destruct (sample_set (seq 0 n) n k [] draws).
Qed.

(** C6, as the code has it.  [sample] takes no argument: the batch size
    [b] is the one given at construction.  On a buffer filled by [add]
    that holds at least [b >= 1] experiences, a call of [random.sample]
    that returns has chosen [b] pairwise different positions, and
    [sample] returns the collation of the experiences stored there, in
    the order drawn; the call returns when the draws of the generator
    are values that [_randbelow] can return.  Every choice of [b] different positions is
    returned for some draws of the generator; it is returned for exactly
    one sequence of [b] draws when the memory holds at most [setsize]
    experiences, and beyond that size the choice commutes with every
    renaming of the positions: the sample is uniform when the draws of
    the generator are uniform and independent.  On a buffer that holds
    fewer than [b] experiences [random.sample] raises Python's
    ValueError, and so does [sample]. *)
Theorem sample_draws_or_ValueError a C b seed (trs : list (Transition State)) :
  let buf := add_all (ReplayBuffer.init a C b seed) trs in
  let n := ReplayBuffer.len buf in
  (0 < b → b ≤ n → ∀ draws experiences,
     python_random_sample (items (ReplayBuffer.memory buf)) b draws = Some (Ok experiences) →
     ∃ picks es,
       sample_positions n b draws = Some picks
       ∧ length picks = b ∧ NoDup picks ∧ Forall (λ i, i < n) picks
       ∧ experiences = Some <$> es
       ∧ ReplayBuffer.sample buf picks = Ok (collate es)
       ∧ length es = b
       ∧ ∀ j i, picks !! j = Some i →
           ∃ e, items (ReplayBuffer.memory buf) !! i = Some (Some e) ∧ es !! j = Some e)
  ∧ (b ≤ n → ∀ draws,
       (n ≤ setsize b → b ≤ length draws ∧
          ∀ i d, draws !! i = Some d → i < b → d < n - i) →
       (setsize b < n → Forall (λ d, d < n) draws ∧
          b ≤ size (list_to_set draws : gset nat)) →
       is_Some (sample_positions n b draws))
  ∧ (b ≤ n → ∀ picks, length picks = b → NoDup picks → Forall (λ i, i < n) picks →
       ∃ draws, length draws = b ∧ sample_positions n b draws = Some picks)
  ∧ (b ≤ n → n ≤ setsize b → ∀ draws1 draws2 picks,
       length draws1 = b → length draws2 = b →
       sample_positions n b draws1 = Some picks →
       sample_positions n b draws2 = Some picks →
       draws1 = draws2)
  ∧ (b ≤ n → setsize b < n → ∀ σ draws, renaming n σ →
       sample_positions n b (σ <$> draws)
       = fmap (M := list) σ <$> sample_positions n b draws)
  ∧ (n < b → ∀ draws picks,
       python_random_sample (items (ReplayBuffer.memory buf)) b draws
         = Some (Raise ValueError)
       ∧ ReplayBuffer.sample buf picks = Raise ValueError).
Proof.
  intros buf n. split_and!.
  - intros Hpos Hle draws experiences Hrun.
    destruct (python_random_sample_Ok _ _ _ _ Hrun) as (picks & Hpicks & Hvalid & Hdraw).
    fold (ReplayBuffer.len buf) in Hpicks, Hvalid. fold n in Hpicks, Hvalid.
    destruct (sample_filled a C b seed trs picks Hpos Hle Hvalid)
      as (es & Hes & Hs & Hlen & Hat).
    fold buf in Hes, Hs, Hat. rewrite Hdraw in Hes. injection Hes as ->.
    destruct Hvalid as (Hl & Hnd & Hran).
    exists picks, es. split_and!; done.
  - intros Hle draws Hpool Hset. rewrite sample_positions_eq by done.
    destruct (decide (n ≤ setsize b)) as [Hsmall|Hbig].
    + destruct (Hpool Hsmall) as [Hl Hran].
      apply sample_pool_returns; [rewrite length_seq; lia|lia|done|].
      intros t d Ht Htb. specialize (Hran t d Ht Htb). lia.
    + destruct Hset as [Hall Hsize]; [lia|].
      apply sample_set_returns; [done|].
      cbn [list_to_set]. by rewrite difference_empty_L.
  - intros Hle picks Hl Hnd Hran. rewrite <- Hl in Hle.
    destruct (decide (n ≤ setsize b)) as [Hsmall|Hbig].
    + destruct (sample_pool_surj b (seq 0 n) n 0 picks) as (draws & Hld & Hrun).
      * rewrite length_seq. lia.
      * rewrite Nat.sub_0_r, take_ge by (rewrite length_seq; lia). apply NoDup_seq.
      * done.
      * done.
      * intros i Hi. rewrite Nat.sub_0_r, take_ge by (rewrite length_seq; lia).
        apply elem_of_seq. eapply Forall_forall in Hran; [|done]. lia.
      * exists draws. split; [done|].
        rewrite sample_positions_eq by lia. by rewrite decide_True.
    + exists picks. split; [done|].
      rewrite sample_positions_eq by lia. rewrite decide_False by done.
      apply sample_set_distinct; [done..|].
      eapply List.Forall_impl; [|exact Hran]. intros i Hi. split; [done|].
      apply not_elem_of_nil.
  - intros Hle Hsmall draws1 draws2 picks Hl1 Hl2 H1 H2.
    rewrite sample_positions_eq in H1, H2 by done.
    rewrite decide_True in H1, H2 by done.
    assert (take b draws1 = take b draws2) as Heq.
    { eapply (sample_pool_inj b (seq 0 n) n 0); [|done..].
      rewrite Nat.sub_0_r, take_ge by (rewrite length_seq; lia). apply NoDup_seq. }
    by rewrite !take_ge in Heq by lia.
  - intros Hle Hbig σ draws Hσ.
    rewrite !sample_positions_eq by done. rewrite !decide_False by lia.
    apply (sample_set_renaming n σ b [] draws Hσ).
  - intros Hlt draws picks. split.
    + unfold python_random_sample. cbn zeta.
      fold (ReplayBuffer.len buf). fold n. by rewrite decide_False by lia.
    + apply sample_short.
      destruct (add_all_fields (ReplayBuffer.init a C b seed) trs) as (_ & Hb & _).
      fold buf in Hb. rewrite Hb. done.
Qed.

End SampleProperties.

(** * The properties on the tabular agent *)

#[local] Existing Instance tabular.

Lemma table_agent_shaped b : action_values_shaped (table_agent b).
Proof. split; [vm_compute; lia|]. by intros []. Qed.

Lemma table_agent_same_shapes b :
  same_shapes (table_agent b) (Agent.qnetwork_local (table_agent b))
              (Agent.qnetwork_target (table_agent b)).
Proof.
  intros tp lp Hin. cbn in Hin.
  apply elem_of_cons in Hin as [[= -> ->]|Hin]; [done|].
  apply elem_of_cons in Hin as [[= -> ->]|Hin]; [done|].
  by apply elem_of_nil in Hin.
Qed.

Lemma table_picks : sample_picks 3 2 [2; 0].
Proof.
  split_and!; [done| |].
  - apply NoDup_cons. split; [|apply NoDup_singleton].
    intros Hin. by apply list_elem_of_singleton in Hin.
  - repeat constructor.
Qed.

(** The estimators disagree in state [false]: Double DQN bootstraps
    with the target value 3 of the online argmax, plain DQN with the
    target maximum 7. *)
Example double_dqn_gathers_not_max :
  (∃ nmv, Agent.next_max_values (table_agent true) [false] = Ok nmv
          ∧ this <$> value nmv = [3%Q])
  ∧ (∃ nmv, Agent.next_max_values (table_agent false) [false] = Ok nmv
            ∧ this <$> value nmv = [7%Q]).
Proof. split; eexists; (split; [reflexivity|by vm_compute]). Qed.

(** The learning gate: after 64 calls of [step] the counter is at zero
    but the memory holds only [BATCH_SIZE] experiences, and [learn] has
    not been entered; after 68 calls it has been entered once. *)
Example learn_gate :
  Agent.learn_calls (run (table_agent true) (table_calls 64)) = 0
  ∧ Agent.t_step (run (table_agent true) (table_calls 64)) = 0%Z
  ∧ Agent.learn_calls (run (table_agent true) (table_calls 68)) = 1.
Proof. by vm_compute. Qed.

(** One [learn]: the online tensors 0 and 1 have moved by the
    gradient, the target tensors 2 and 3 hold the blend of their old
    value with the new online value, and have no gradient. *)
Example learn_blends_target :
  (λ p, this <$> Agent.param (run (table_agent true) (table_calls 68)) p) <$> [0; 1; 2; 3]
  = [[0%Q; 4%Q]; [1%Q; (-1)%Q];
     [(6993 # 1000)%Q; (3001 # 1000)%Q]; [(3997 # 1000)%Q; (899 # 100)%Q]]
  ∧ Agent.grad (run (table_agent true) (table_calls 68)) !! 2 = None
  ∧ Agent.grad (run (table_agent true) (table_calls 68)) !! 3 = None.
Proof. by vm_compute. Qed.

Lemma double_dqn_bootstrap_witness :
  action_values_shaped (table_agent true)
  ∧ ∃ nmv, Agent.next_max_values (table_agent true) [false; true] = Ok nmv
      ∧ length (value nmv) = length [false; true]
      ∧ ∀ i s, [false; true] !! i = Some s →
          (Agent.double_dqn (table_agent true) = true →
             ∃ a m v, first_max_at (q_online (table_agent true) s) a m
                      ∧ q_target (table_agent true) s !! a = Some v
                      ∧ value nmv !! i = Some v)
          ∧ (Agent.double_dqn (table_agent true) = false →
             ∃ a m, first_max_at (q_target (table_agent true) s) a m
                    ∧ value nmv !! i = Some m).
Proof.
  split; [apply table_agent_shaped|].
  apply (double_dqn_bootstrap (table_agent true) [false; true]).
  apply table_agent_shaped.
Defined.

Lemma replay_buffer_capacity_fifo_witness :
  length table_transitions = 2 + 1
  ∧ ReplayBuffer.len (add_all (ReplayBuffer.init 2 2 1 0) table_transitions) ≤ 2
  ∧ items (ReplayBuffer.memory (add_all (ReplayBuffer.init 2 2 1 0) table_transitions))
    = (Some ∘ experience_of) <$> drop 1 table_transitions
  ∧ ReplayBuffer.len (add_all (ReplayBuffer.init 2 2 1 0) table_transitions) = 2.
Proof.
  split; [reflexivity|].
  destruct (replay_buffer_capacity_fifo (State := bool) 2 2 1 0) as [Hle Hfifo].
  split; [apply Hle|]. apply (Hfifo table_transitions 1). reflexivity.
Defined.

(** The sample drawn at positions 2 and 0 of that buffer. *)
Example sample_draws_positions :
  ReplayBuffer.sample (table_buffer 2 table_transitions) [2; 0]
  = Ok (collate [experience false 0%Z (q 3) false false;
                 experience false 1%Z (q 1) true true]).
Proof. reflexivity. Qed.

(** C6, as the spec states it, fails on the code: a buffer with batch
    size 0 holds at least 0 experiences, yet [sample] raises instead of
    returning 0 experiences; and on a buffer that holds fewer
    experiences than the batch size the exception is Python's
    [ValueError], not an [InsufficientData]. *)
Lemma sample_raises_ValueError :
  ReplayBuffer.batch_size (table_buffer 0 table_transitions)
    ≤ ReplayBuffer.len (table_buffer 0 table_transitions)
  ∧ sample_picks (ReplayBuffer.len (table_buffer 0 table_transitions)) 0 []
  ∧ ReplayBuffer.sample (table_buffer 0 table_transitions) [] = Raise "ValueError"
  ∧ ReplayBuffer.len (table_buffer 5 table_transitions)
    < ReplayBuffer.batch_size (table_buffer 5 table_transitions)
  ∧ ReplayBuffer.sample (table_buffer 5 table_transitions) [2; 0] = Raise "ValueError"
  ∧ ReplayBuffer.sample (table_buffer 5 table_transitions) [2; 0]
    ≠ Raise "InsufficientData".
Proof.
  split_and!; [vm_compute; lia| |reflexivity|vm_compute; lia|reflexivity|discriminate].
  split_and!; [done|constructor|constructor].
Qed.

Lemma sample_five_arrays_of_batch_size_witness :
  0 < 2
  ∧ 2 ≤ ReplayBuffer.len (table_buffer 2 table_transitions)
  ∧ sample_picks (ReplayBuffer.len (table_buffer 2 table_transitions)) 2 [2; 0]
  ∧ ∃ experiences,
      random_sample (items (ReplayBuffer.memory (table_buffer 2 table_transitions)))
        (ReplayBuffer.batch_size (table_buffer 2 table_transitions)) [2; 0]
        = Ok experiences
      ∧ length experiences = 2
      ∧ length (not_None experiences) = length experiences
      ∧ ∃ states actions rewards next_states dones,
          ReplayBuffer.sample (table_buffer 2 table_transitions) [2; 0]
            = Ok (states, actions, rewards, next_states, dones)
          ∧ length states = 2 ∧ length actions = 2 ∧ length rewards = 2
          ∧ length next_states = 2 ∧ length dones = 2.
Proof.
  assert (0 < 2) as H0 by lia.
  assert (2 ≤ ReplayBuffer.len (table_buffer 2 table_transitions)) as H1 by (vm_compute; lia).
  split; [exact H0|]. split; [exact H1|]. split; [apply table_picks|].
  exact (sample_five_arrays_of_batch_size (State := bool) 2 10 2 0 table_transitions
           [2; 0] H0 H1 table_picks).
Defined.

(** C10, as stated, fails on the code: with batch size 0 the buffer
    holds at least [batch_size] experiences, the draw is empty, and
    [np.vstack] of the empty list raises. *)
Lemma sample_batch_size_zero_raises :
  ReplayBuffer.batch_size (table_buffer 0 table_transitions)
    ≤ ReplayBuffer.len (table_buffer 0 table_transitions)
  ∧ sample_picks (ReplayBuffer.len (table_buffer 0 table_transitions))
      (ReplayBuffer.batch_size (table_buffer 0 table_transitions)) []
  ∧ ReplayBuffer.sample (table_buffer 0 table_transitions) [] = Raise ValueError.
Proof.
  split_and!; [vm_compute; lia| |reflexivity].
  split_and!; [done|constructor|constructor].
Qed.

Lemma act_eps_zero_witness :
  q_online (table_agent false) false ≠ []
  ∧ 0 < Agent.action_size (table_agent false)
  ∧ ((0 < 0)%Qc →
       ∃ a m, first_max_at (q_online (table_agent false) false) a m
              ∧ Agent.act (table_agent false) false 0 0 0 = Ok (Z.of_nat a))
  ∧ (0%Qc = 0%Qc → Agent.act (table_agent false) false 0 0 0 = Ok (Z.of_nat 0)).
Proof.
  assert (q_online (table_agent false) false ≠ []) as H0 by discriminate.
  assert (0 < Agent.action_size (table_agent false)) as H1 by (vm_compute; lia).
  split; [exact H0|]. split; [exact H1|].
  exact (act_eps_zero (table_agent false) false 0 0 H0 H1).
Defined.

(** The failing input of C8: in state [false] the online action values
    are [1; 5], so the argmax is action 1; with [eps = 0] and a draw of
    0.0, [act] returns the action 0 drawn by [random.choice]. *)
Lemma act_draw_zero_not_argmax :
  first_max_at (q_online (table_agent false) false) 1 (q 5)
  ∧ Agent.act (table_agent false) false 0 0 0 = Ok 0%Z
  ∧ Agent.act (table_agent false) false 0 1 0 = Ok 1%Z.
Proof.
  split; [|split; reflexivity].
  destruct (np_argmax_first_max (q_online (table_agent false) false))
    as (a & m & Ha & Hfm); [discriminate|].
  injection Ha as <-. pose proof Hfm as (Hm & _). injection Hm as <-. exact Hfm.
Qed.

Lemma step_schedules_learn_witness :
  sample_picks
    (ReplayBuffer.len (Agent.memory
       (step_call (run (table_agent true) (table_calls 67))
                  (table_transition, seq 0 BATCH_SIZE))))
    BATCH_SIZE (seq 0 BATCH_SIZE)
  ∧ (Agent.learn_calls
       (step_call (run (table_agent true) (table_calls 67))
                  (table_transition, seq 0 BATCH_SIZE))
     = S (Agent.learn_calls (run (table_agent true) (table_calls 67)))
     ↔ Agent.t_step
         (step_call (run (table_agent true) (table_calls 67))
                    (table_transition, seq 0 BATCH_SIZE)) = 0%Z
       ∧ BATCH_SIZE
         < ReplayBuffer.len (Agent.memory
             (step_call (run (table_agent true) (table_calls 67))
                        (table_transition, seq 0 BATCH_SIZE)))).
Proof.
  assert (sample_picks
    (ReplayBuffer.len (Agent.memory
       (step_call (run (table_agent true) (table_calls 67))
                  (table_transition, seq 0 BATCH_SIZE))))
    BATCH_SIZE (seq 0 BATCH_SIZE)) as Hpicks.
  { replace (ReplayBuffer.len _) with 68 by (by vm_compute).
    split_and!; [reflexivity|apply NoDup_seq|].
    apply Forall_forall. intros i Hi. apply elem_of_seq in Hi.
    unfold BATCH_SIZE in Hi. lia. }
  split; [exact Hpicks|].
  destruct (@step_schedules_learn bool tabular 1 2 0 true false
              [[q 1; q 5]; [q 2; q 0]] [[q 7; q 3]; [q 4; q 9]] 0
              (table_calls 67) table_transition (seq 0 BATCH_SIZE))
    as (_ & _ & _ & Hiff & _).
  exact (Hiff Hpicks).
Defined.

(** ** The further properties on the tabular agent *)

Lemma table_agent_separate b : separate_networks (table_agent b).
Proof. apply init_separate. Qed.

Lemma table_calls_picks n :
  BATCH_SIZE < n → sample_picks n BATCH_SIZE (seq 0 BATCH_SIZE).
Proof.
  intros Hn. split_and!; [reflexivity|apply NoDup_seq|].
  apply Forall_forall. intros i Hi. apply elem_of_seq in Hi. lia.
Qed.

Lemma sample_batch_rows_witness :
  ReplayBuffer.sample (table_buffer 2 table_transitions) [2; 0]
  = Ok ([false; false], [0%Z; 1%Z], [q 3; q 1], [false; true], [q 0; q 1])
  ∧ ∃ es : list (Experience bool),
      0 < length es ∧ length es ≤ length [2; 0]
      ∧ length [false; false] = length es ∧ length [0%Z; 1%Z] = length es
      ∧ length [q 3; q 1] = length es ∧ length [false; true] = length es
      ∧ length [q 0; q 1] = length es
      ∧ ∀ i e, es !! i = Some e →
          Some e ∈ items (ReplayBuffer.memory (table_buffer 2 table_transitions))
          ∧ [false; false] !! i = Some (state e)
          ∧ [0%Z; 1%Z] !! i = Some (action e)
          ∧ [q 3; q 1] !! i = Some (reward e)
          ∧ [false; true] !! i = Some (next_state e)
          ∧ [q 0; q 1] !! i = Some (to_float (astype_uint8 (done e))).
Proof.
  split; [reflexivity|].
  apply (sample_batch_rows (table_buffer 2 table_transitions) [2; 0]).
  reflexivity.
Defined.

Lemma step_guard_makes_sample_safe_witness :
  BATCH_SIZE
    < ReplayBuffer.len (Agent.memory
        (step_call (run (table_agent true) (table_calls 67))
                   (table_transition, seq 0 BATCH_SIZE)))
  ∧ sample_picks
      (ReplayBuffer.len (Agent.memory
         (step_call (run (table_agent true) (table_calls 67))
                    (table_transition, seq 0 BATCH_SIZE))))
      BATCH_SIZE (seq 0 BATCH_SIZE)
  ∧ ∃ states actions rewards next_states dones,
      ReplayBuffer.sample
        (Agent.memory (step_call (run (table_agent true) (table_calls 67))
                                 (table_transition, seq 0 BATCH_SIZE)))
        (seq 0 BATCH_SIZE)
        = Ok (states, actions, rewards, next_states, dones)
      ∧ length states = BATCH_SIZE ∧ length actions = BATCH_SIZE
      ∧ length rewards = BATCH_SIZE ∧ length next_states = BATCH_SIZE
      ∧ length dones = BATCH_SIZE.
Proof.
  assert (BATCH_SIZE
            < ReplayBuffer.len (Agent.memory
                (step_call (run (table_agent true) (table_calls 67))
                           (table_transition, seq 0 BATCH_SIZE)))) as Hbig
    by (vm_compute; lia).
  assert (sample_picks
            (ReplayBuffer.len (Agent.memory
               (step_call (run (table_agent true) (table_calls 67))
                          (table_transition, seq 0 BATCH_SIZE))))
            BATCH_SIZE (seq 0 BATCH_SIZE)) as Hpicks.
  { replace (ReplayBuffer.len _) with 68 by (by vm_compute).
    apply table_calls_picks. unfold BATCH_SIZE. lia. }
  split; [exact Hbig|]. split; [exact Hpicks|].
  exact (@step_guard_makes_sample_safe bool tabular 1 2 0 true false
           [[q 1; q 5]; [q 2; q 0]] [[q 7; q 3]; [q 4; q 9]] 0
           (table_calls 67) table_transition (seq 0 BATCH_SIZE) Hbig Hpicks).
Defined.

Lemma warm_up_leaves_networks_witness :
  length (table_calls 67) < 68
  ∧ Agent.data (run (table_agent true) (table_calls 67)) = Agent.data (table_agent true)
  ∧ Agent.grad (run (table_agent true) (table_calls 67)) = ∅
  ∧ Agent.optimizer_state (run (table_agent true) (table_calls 67)) = 0
  ∧ Agent.learn_calls (run (table_agent true) (table_calls 67)) = 0
  ∧ ∀ st a r st' d picks,
      length (table_calls 67) < 67 →
      (Agent.step st a r st' d picks (run (table_agent true) (table_calls 67))).2 = Ok tt.
Proof.
  assert (length (table_calls 67) < 68) as Hn by (vm_compute; lia).
  split; [exact Hn|].
  exact (@warm_up_leaves_networks bool tabular 1 2 0 true false
           [[q 1; q 5]; [q 2; q 0]] [[q 7; q 3]; [q 4; q 9]] 0 (table_calls 67) Hn).
Defined.

Lemma learn_calls_count_witness :
  (∀ i c, table_calls 72 !! i = Some c →
     BATCH_SIZE < S i → S i `mod` Z.to_nat UPDATE_EVERY = 0 →
     sample_picks (S i `min` BUFFER_SIZE) BATCH_SIZE c.2)
  ∧ Agent.learn_calls (run (table_agent true) (table_calls 72))
    = length (table_calls 72) / Z.to_nat UPDATE_EVERY - BATCH_SIZE / Z.to_nat UPDATE_EVERY.
Proof.
  assert (∀ i c, table_calls 72 !! i = Some c →
            BATCH_SIZE < S i → S i `mod` Z.to_nat UPDATE_EVERY = 0 →
            sample_picks (S i `min` BUFFER_SIZE) BATCH_SIZE c.2) as Hpicks.
  { intros i c Hc Hi _. unfold table_calls in Hc.
    apply lookup_replicate in Hc as [-> _]. apply table_calls_picks.
    pose proof BUFFER_SIZE_above_batch. lia. }
  split; [exact Hpicks|].
  exact (@learn_calls_count bool tabular 1 2 0 true false
           [[q 1; q 5]; [q 2; q 0]] [[q 7; q 3]; [q 4; q 9]] 0 (table_calls 72) Hpicks).
Defined.

(** After 72 calls [learn] has been entered twice, at the calls 68 and
    72. *)
Example learn_entered_twice :
  (λ n, Agent.learn_calls (run (table_agent true) (table_calls n))) <$> [67; 68; 71; 72]
  = [0; 1; 1; 2].
Proof. by vm_compute. Qed.

Lemma act_returns_action_witness :
  action_values_shaped (table_agent false)
  ∧ 0 < Agent.action_size (table_agent false)
  ∧ ∃ a, Agent.act (table_agent false) false 0 1 0 = Ok a
         ∧ (0 ≤ a < Z.of_nat (Agent.action_size (table_agent false)))%Z.
Proof.
  assert (0 < Agent.action_size (table_agent false)) as Hr by (vm_compute; lia).
  split; [apply table_agent_shaped|]. split; [exact Hr|].
  exact (act_returns_action (table_agent false) false 0 1 0
           (table_agent_shaped false) Hr).
Defined.

Lemma double_dqn_at_most_target_max_witness :
  action_values_shaped (table_agent true)
  ∧ Agent.double_dqn (table_agent true) = true
  ∧ Agent.next_max_values (table_agent true) [false] = Ok (Tensor [q 3] ∅)
  ∧ ∃ a m, first_max_at (q_target (table_agent true) false) a m
           ∧ (q 3 ≤ m)%Qc
           ∧ (q_online (table_agent true) false = q_target (table_agent true) false →
              q 3 = m).
Proof.
  split; [apply table_agent_shaped|]. split; [reflexivity|]. split; [reflexivity|].
  apply (double_dqn_at_most_target_max (table_agent true) [false] (Tensor [q 3] ∅)
           0 false (q 3)); [apply table_agent_shaped|reflexivity..].
Defined.

Lemma learn_returns_and_blends_witness :
  action_values_shaped (table_agent true)
  ∧ separate_networks (table_agent true)
  ∧ same_shapes (table_agent true) (Agent.qnetwork_local (table_agent true))
                (Agent.qnetwork_target (table_agent true))
  ∧ Forall (λ a, (0 ≤ a < Z.of_nat (Agent.action_size (table_agent true)))%Z) [1%Z; 0%Z]
  ∧ (∀ p, p ∈ Agent.qnetwork_local (table_agent true) →
       length (Agent.param (Agent.gradient_step table_batch GAMMA (table_agent true)).1 p)
       = length (Agent.param (table_agent true) p))
  ∧ (Agent.gradient_step table_batch GAMMA (table_agent true)).2 = Ok tt
  ∧ (Agent.learn table_batch GAMMA (table_agent true)).2 = Ok tt
  ∧ ∀ i tp lp, Agent.qnetwork_target (table_agent true) !! i = Some tp →
               Agent.qnetwork_local (table_agent true) !! i = Some lp →
      Agent.param (Agent.learn table_batch GAMMA (table_agent true)).1 lp
      = Agent.param (Agent.gradient_step table_batch GAMMA (table_agent true)).1 lp
      ∧ Agent.param (Agent.learn table_batch GAMMA (table_agent true)).1 tp
        = polyak TAU
            (Agent.param (Agent.gradient_step table_batch GAMMA (table_agent true)).1 lp)
            (Agent.param (table_agent true) tp).
Proof.
  assert (Forall (λ a, (0 ≤ a < Z.of_nat (Agent.action_size (table_agent true)))%Z)
            [1%Z; 0%Z]) as Hact.
  { repeat constructor; by vm_compute. }
  assert (∀ p, p ∈ Agent.qnetwork_local (table_agent true) →
            length (Agent.param (Agent.gradient_step table_batch GAMMA
                                   (table_agent true)).1 p)
            = length (Agent.param (table_agent true) p)) as Hkeep.
  { intros p Hp. cbn in Hp.
    apply elem_of_cons in Hp as [->|Hp]; [by vm_compute|].
    apply elem_of_cons in Hp as [->|Hp]; [by vm_compute|].
    by apply elem_of_nil in Hp. }
  split; [apply table_agent_shaped|]. split; [apply table_agent_separate|].
  split; [apply table_agent_same_shapes|]. split; [exact Hact|]. split; [exact Hkeep|].
  exact (learn_returns_and_blends (table_agent true) [false; true] [1%Z; 0%Z]
           [q 1; q 2] [true; false] [q 1; q 0] GAMMA
           (table_agent_shaped true) (table_agent_separate true)
           (table_agent_same_shapes true) eq_refl eq_refl eq_refl eq_refl Hact Hkeep).
Defined.

(** ** The arithmetic in binary32, on values *)

(** The targets of a batch of two samples, the first terminal: the
    reward 1.0, and the sum of the reward 7.0 and of 0.99 times 1.0. *)
Example td_targets_computed :
  Binary32.targets [f32_one; f32_seven] GAMMA_float [f32_seven; f32_one]
    [Binary32.to_float 1; Binary32.to_float 0]
  = Ok [f32_one; S754_finite false 16756244 (-21)].
Proof. reflexivity. Qed.


(** C2, as the spec states it, fails on the code: for a terminal sample
    with reward 1.0 the target is NaN, not the reward, when the value of
    the estimator on the next state is an infinity, and also when it is
    the finite value [f32_max] and gamma is 2.0. *)
Lemma td_target_terminal_nan :
  Binary32.targets [f32_one] GAMMA_float [f32_inf] [Binary32.to_float 1] = Ok [S754_nan]
  ∧ Float32.valid f32_max = true
  ∧ Binary32.targets [f32_one] (Float64.of_Z 2) [f32_max] [Binary32.to_float 1]
    = Ok [S754_nan]
  ∧ Float32.eqb S754_nan f32_one = false.
Proof. split_and!; reflexivity. Qed.


(** The batch drawn at the positions 2 and 0 holds the done entries 0
    and 1, and with the next values 7.0 and 7.0 its bootstrap terms are
    0.99 times 7.0 and a zero. *)
Example bootstrap_of_drawn_batch :
  (ReplayBuffer.sample (table_buffer 2 table_transitions) [2; 0]
   = Ok (collate [experience false 0%Z (q 3) false false;
                  experience false 1%Z (q 1) true true]))
  ∧ Binary32.bootstrap GAMMA_float [f32_seven; f32_seven]
      [Binary32.to_float (astype_uint8 false); Binary32.to_float (astype_uint8 true)]
    = Ok [Float32.mul (Float32.of_float64 GAMMA_float) f32_seven; S754_zero false].
Proof. split; reflexivity. Qed.

(** C9, as the spec states it, fails on the code: for a terminal
    sample whose estimator value on the next state is an infinity the
    factor [1 - done] does not zero the bootstrap term; the term is
    NaN. *)
Lemma done_flag_bootstrap_nan :
  Binary32.to_float (astype_uint8 true) = f32_one
  ∧ Binary32.bootstrap GAMMA_float [S754_infinity true]
      [Binary32.to_float (astype_uint8 true)] = Ok [S754_nan]
  ∧ Float32.is_zero S754_nan = false.
Proof. split_and!; reflexivity. Qed.

(** One soft update of the target tensor [7.0; 1.0] towards the online
    tensor [1.0; 7.0] with [TAU]. *)
Example soft_update_computed :
  Binary32.param (Binary32.soft_update [0] [1] TAU_float table_store).1 1
  = [S754_finite false 14667481 (-21); S754_finite false 8438940 (-23)].
Proof. reflexivity. Qed.



(** C3, as the spec states it, fails on the code: with the online
    entry 1.0 and [TAU], a target entry that starts at the binary32
    value nearest to 1.00005 is left where it is by every soft update,
    because the blend rounds back to it; after 1000 soft updates the
    closed form has moved below 1.00002 while the target entry is still
    above 1.00004. *)
Lemma soft_update_stalls :
  Binary32.param stalled_store 0 = [f32_one]
  ∧ (∀ n, Binary32.param (Binary32.soft_updates n [0] [1] TAU_float stalled_store) 1
          = [f32_stalled])
  ∧ (Float32.to_Q f32_one
       - (Float32.to_Q f32_one - Float32.to_Q f32_stalled) * (1 - (1 # 1000)) ^ 1000
     < 1 + (2 # 100000))%Q
  ∧ (1 + (4 # 100000) < Float32.to_Q f32_stalled)%Q.
Proof.
  split; [reflexivity|]. split; [|split; by vm_compute].
  assert (∀ n, Binary32.soft_updates n [0] [1] TAU_float stalled_store = stalled_store)
    as Hfix.
  { induction n as [|n IH]; [done|].
    unfold Binary32.soft_updates in *. rewrite Nat.iter_succ, IH. by vm_compute. }
  intros n. by rewrite Hfix.
Qed.

Lemma sample_draws_or_ValueError_witness :
  0 < 2
  ∧ 2 ≤ ReplayBuffer.len (table_buffer 2 table_transitions)
  ∧ python_random_sample (items (ReplayBuffer.memory (table_buffer 2 table_transitions)))
      2 [2; 0]
    = Some (Ok [Some (experience false 0%Z (q 3) false false);
                Some (experience false 1%Z (q 1) true true)])
  ∧ ∃ picks es,
      sample_positions (ReplayBuffer.len (table_buffer 2 table_transitions)) 2 [2; 0]
        = Some picks
      ∧ length picks = 2 ∧ NoDup picks
      ∧ Forall (λ i, i < ReplayBuffer.len (table_buffer 2 table_transitions)) picks
      ∧ [Some (experience false 0%Z (q 3) false false);
         Some (experience false 1%Z (q 1) true true)] = Some <$> es
      ∧ ReplayBuffer.sample (table_buffer 2 table_transitions) picks = Ok (collate es)
      ∧ length es = 2
      ∧ ∀ j i, picks !! j = Some i →
          ∃ e, items (ReplayBuffer.memory (table_buffer 2 table_transitions)) !! i
                 = Some (Some e)
               ∧ es !! j = Some e.
Proof.
  assert (0 < 2) as H0 by lia.
  assert (2 ≤ ReplayBuffer.len (table_buffer 2 table_transitions)) as H1
    by (vm_compute; lia).
  assert (python_random_sample
            (items (ReplayBuffer.memory (table_buffer 2 table_transitions))) 2 [2; 0]
          = Some (Ok [Some (experience false 0%Z (q 3) false false);
                      Some (experience false 1%Z (q 1) true true)])) as Hrun
    by reflexivity.
  split; [exact H0|]. split; [exact H1|]. split; [exact Hrun|].
  exact (proj1 (sample_draws_or_ValueError (State := bool) 2 10 2 0 table_transitions)
           H0 H1 [2; 0] _ Hrun).
Defined.

(** The positions chosen for the draws 2 and 0 in a memory of three
    experiences, which is below [setsize]; for a batch size of 64 the
    loop over a copy of the memory is taken up to 277 experiences. *)
Example sample_positions_computed :
  sample_positions 3 2 [2; 0] = Some [2; 0]
  ∧ setsize 2 = 21 ∧ setsize BATCH_SIZE = 277.
Proof. split_and!; reflexivity. Qed.

Lemma gradient_step_fresh_gradients_witness :
  let s := run (table_agent true) (table_calls 68) in
  length <$> Agent.grad s !! 0 = Some 2
  ∧ Agent.optimizer s = Agent.qnetwork_local s
  ∧ Agent.gradient_step table_batch GAMMA s
    = ((Agent.gradient_step table_batch GAMMA s).1, Ok tt)
  ∧ 0 ∈ Agent.qnetwork_local s
  ∧ ∃ tg so loss g,
      Agent.targets s table_batch GAMMA = Ok tg
      ∧ Agent.selected_outputs s table_batch = Ok so
      ∧ mse_loss so tg = Ok loss
      ∧ Agent.grad (Agent.gradient_step table_batch GAMMA s).1 !! 0 = Some g
      ∧ (∀ j x, g !! j = Some x → autograd loss 0 !! j = Some x)
      ∧ g = autograd loss 0.
Proof.
  intros s.
  assert (length <$> Agent.grad s !! 0 = Some 2) as Hold by (by vm_compute).
  assert (Agent.optimizer s = Agent.qnetwork_local s) as Hopt by (by vm_compute).
  assert (Agent.gradient_step table_batch GAMMA s
          = ((Agent.gradient_step table_batch GAMMA s).1, Ok tt)) as Hstep.
  { assert ((Agent.gradient_step table_batch GAMMA s).2 = Ok tt) as Hret
      by (by vm_compute).
    destruct (Agent.gradient_step table_batch GAMMA s) as [s1 r].
    cbn [fst snd] in *. by rewrite Hret. }
  assert (0 ∈ Agent.qnetwork_local s) as Hp.
  { replace (Agent.qnetwork_local s) with [0; 1] by (by vm_compute). by left. }
  split; [exact Hold|]. split; [exact Hopt|]. split; [exact Hstep|]. split; [exact Hp|].
  destruct (gradient_step_fresh_gradients table_batch GAMMA s
              (Agent.gradient_step table_batch GAMMA s).1 0 Hopt Hstep Hp)
    as (tg & so & loss & g & Htg & Hso & Hloss & Hg & Hpre & Heq).
  exists tg, so, loss, g. split_and!; [done..|].
  apply Heq. intros old Ho. rewrite Ho in Hold. cbn in Hold. by injection Hold.
Defined.
